(** * Manim-Physics-Model: the shared model clock and the coordinate helper

    A shallow embedding of [src/timebase.py] (classes [TimeWindow] and
    [Timebase]) and of [src/coordinates.py] (class [Coords]), with the
    properties of the specification stated and proved over it.

    Numbers.  Python floats are modelled by exact rationals [Q]; every
    comparison of the source ([==], [!=], [<], [<=]) is the corresponding
    comparison of [Q], so equal values written differently ([1#2], [2#4])
    behave alike.  The one non-finite float the source names,
    [float("inf")] as the upper end of a window, is the constructor [PInf]
    of [xreal].  Rounding of floating-point arithmetic is not modelled
    there, nor are NaN and infinite values of the other attributes; the
    statements that depend on exactness say so.  What rounding changes
    is computed in [Float64], a second embedding of the boundary policy
    over binary64 floats.

    Effects.  A method that may raise returns a [result]; a method that
    may also invoke cue callbacks returns an [Eff]: a result carrying the
    updated object and the callback invocations it made, in order.
    Callbacks are opaque to the clock: a callback is a name, and invoking
    it is recorded as the pair of that name and the argument passed.  A
    callback that itself acts on the clock or raises is outside this
    embedding. *)

From Stdlib Require Import ZArith List Bool String Lia.
From Stdlib Require Import QArith Qabs Qround Qminmax Lqa.
From Stdlib Require PrimFloat SpecFloat FloatOps.
Import ListNotations.

Local Open Scope Q_scope.

(** ** Python values and exceptions *)

Module Py.

Inductive exn : Type :=
| ValueError (msg : string)
| ZeroDivisionError.

Inductive result (A : Type) : Type :=
| Ok (a : A)
| Raise (e : exn).

Arguments Ok {A} a.
Arguments Raise {A} e.

Definition bind {A B} (m : result A) (f : A -> result B) : result B :=
  match m with
  | Ok a => f a
  | Raise e => Raise e
  end.

(** A float that is finite, or [float("inf")]. *)
Inductive xreal : Type :=
| Fin (q : Q)
| PInf.

(** [x < b] and [x <= b] against a possibly infinite [b]. *)
Definition lt_x (x : Q) (b : xreal) : bool :=
  match b with
  | Fin q => match Qcompare x q with Lt => true | _ => false end
  | PInf => true
  end.

Definition is_inf (b : xreal) : bool :=
  match b with
  | Fin _ => false
  | PInf => true
  end.

Definition le_x (x : Q) (b : xreal) : Prop :=
  match b with
  | Fin q => x <= q
  | PInf => True
  end.

(** [min(t, b)] with [b] possibly infinite. *)
Definition min_x (t : Q) (b : xreal) : Q :=
  match b with
  | Fin q => Qmin t q
  | PInf => t
  end.

Definition Qltb (x y : Q) : bool :=
  match Qcompare x y with Lt => true | _ => false end.

(** Python's [x % y] on floats, in exact arithmetic: the remainder has
    the sign of [y], and a zero divisor raises.  [Float64.float_mod] is
    the operation on doubles. *)
Definition float_mod (x y : Q) : result Q :=
  if Qeq_bool y 0 then Raise ZeroDivisionError
  else Ok (x - y * inject_Z (Qfloor (x / y))).

(** Python's [round(x)] with one argument: nearest integer, ties to even. *)
Definition round (x : Q) : Z :=
  let f := Qfloor x in
  match Qcompare (x - inject_Z f) (1 # 2) with
  | Lt => f
  | Gt => (f + 1)%Z
  | Eq => if Z.even f then f else (f + 1)%Z
  end.

(** [bool(n)] for an int. *)
Definition bool_of_int (n : Z) : bool := negb (Z.eqb n 0).

End Py.

Import Py.

Notation "x <- m ;; k" := (bind m (fun x => k))
  (at level 61, m at next level, right associativity).

(** ** src/timebase.py *)

Inductive WrapMode : Type :=
| clamp
| loop
| pingpong.

Definition WrapMode_eqb (m n : WrapMode) : bool :=
  match m, n with
  | clamp, clamp | loop, loop | pingpong, pingpong => true
  | _, _ => false
  end.

Record TimeWindow : Type := mkTimeWindow {
  t_min : Q;
  t_max : xreal
}.

(** A callback is opaque; it is known by name. *)
Definition callback : Type := string.

(** One invocation [fn(x)]. *)
Definition call : Type := (callback * Q)%type.

(** The key [(t0, t1, idx)] of [_range_state]. *)
Definition range_key : Type := (Q * Q * nat)%type.

Definition range_key_eqb (k1 k2 : range_key) : bool :=
  let '(a1, b1, i1) := k1 in
  let '(a2, b2, i2) := k2 in
  Qeq_bool a1 a2 && Qeq_bool b1 b2 && Nat.eqb i1 i2.

(** The attributes of a [Timebase].  The three [ValueTracker]s are the
    floats they hold, taken to be finite. *)
Record Timebase : Type := mkTimebase {
  _time : Q;
  _prev_time : Q;
  _rate : Q;
  _running : Q;
  wrap_mode : WrapMode;
  window : TimeWindow;
  clamp_dt : Q;
  _dir_sign : Q;
  _instant_cues : list (Q * callback);
  _range_cues : list (Q * Q * callback * callback);
  _range_state : list (range_key * bool)
}.

(** Attribute assignment. *)
Definition set_time (tb : Timebase) (v : Q) : Timebase :=
  mkTimebase v (_prev_time tb) (_rate tb) (_running tb) (wrap_mode tb)
    (window tb) (clamp_dt tb) (_dir_sign tb) (_instant_cues tb)
    (_range_cues tb) (_range_state tb).

Definition set_prev_time (tb : Timebase) (v : Q) : Timebase :=
  mkTimebase (_time tb) v (_rate tb) (_running tb) (wrap_mode tb)
    (window tb) (clamp_dt tb) (_dir_sign tb) (_instant_cues tb)
    (_range_cues tb) (_range_state tb).

Definition set_rate_value (tb : Timebase) (v : Q) : Timebase :=
  mkTimebase (_time tb) (_prev_time tb) v (_running tb) (wrap_mode tb)
    (window tb) (clamp_dt tb) (_dir_sign tb) (_instant_cues tb)
    (_range_cues tb) (_range_state tb).

Definition set_running_value (tb : Timebase) (v : Q) : Timebase :=
  mkTimebase (_time tb) (_prev_time tb) (_rate tb) v (wrap_mode tb)
    (window tb) (clamp_dt tb) (_dir_sign tb) (_instant_cues tb)
    (_range_cues tb) (_range_state tb).

Definition set_wrap_mode (tb : Timebase) (v : WrapMode) : Timebase :=
  mkTimebase (_time tb) (_prev_time tb) (_rate tb) (_running tb) v
    (window tb) (clamp_dt tb) (_dir_sign tb) (_instant_cues tb)
    (_range_cues tb) (_range_state tb).

Definition set_window_value (tb : Timebase) (v : TimeWindow) : Timebase :=
  mkTimebase (_time tb) (_prev_time tb) (_rate tb) (_running tb)
    (wrap_mode tb) v (clamp_dt tb) (_dir_sign tb) (_instant_cues tb)
    (_range_cues tb) (_range_state tb).

Definition set_dir_sign (tb : Timebase) (v : Q) : Timebase :=
  mkTimebase (_time tb) (_prev_time tb) (_rate tb) (_running tb)
    (wrap_mode tb) (window tb) (clamp_dt tb) v (_instant_cues tb)
    (_range_cues tb) (_range_state tb).

Definition set_instant_cues (tb : Timebase) (v : list (Q * callback))
  : Timebase :=
  mkTimebase (_time tb) (_prev_time tb) (_rate tb) (_running tb)
    (wrap_mode tb) (window tb) (clamp_dt tb) (_dir_sign tb) v
    (_range_cues tb) (_range_state tb).

Definition set_range_cues (tb : Timebase)
  (v : list (Q * Q * callback * callback)) : Timebase :=
  mkTimebase (_time tb) (_prev_time tb) (_rate tb) (_running tb)
    (wrap_mode tb) (window tb) (clamp_dt tb) (_dir_sign tb)
    (_instant_cues tb) v (_range_state tb).

Definition set_range_state (tb : Timebase) (v : list (range_key * bool))
  : Timebase :=
  mkTimebase (_time tb) (_prev_time tb) (_rate tb) (_running tb)
    (wrap_mode tb) (window tb) (clamp_dt tb) (_dir_sign tb)
    (_instant_cues tb) (_range_cues tb) v.

(** [Timebase.__init__]; the defaults of the signature are
    [default_window] and [default_clamp_dt]. *)
Definition default_window : TimeWindow := mkTimeWindow 0 PInf.
Definition default_clamp_dt : Q := 1 # 30.

Definition __init__ (t0 rate : Q) (wrap : WrapMode) (window : TimeWindow)
  (clamp_dt : Q) : Timebase :=
  mkTimebase t0 t0 rate 1 wrap window clamp_dt 1 [] [] [].

Definition model_time (tb : Timebase) : Q := _time tb.

Definition rate (tb : Timebase) : Q := _rate tb.

Definition running (tb : Timebase) : bool :=
  bool_of_int (round (_running tb)).

Definition play (tb : Timebase) : Timebase := set_running_value tb 1.

Definition pause (tb : Timebase) : Timebase := set_running_value tb 0.

Definition toggle (tb : Timebase) : Timebase :=
  set_running_value tb (if running tb then 0 else 1).

Definition set_rate (tb : Timebase) (r : Q) : Timebase :=
  set_rate_value tb r.

Definition speed (tb : Timebase) (s : Q) : Timebase := set_rate tb s.

Definition reverse (tb : Timebase) : Timebase :=
  set_rate_value tb (- Qabs (rate tb)).

Definition forward (tb : Timebase) : Timebase :=
  set_rate_value tb (Qabs (rate tb)).

(** [finite = (a < b) and (b != float("inf"))] *)
Definition finite (w : TimeWindow) : bool :=
  lt_x (t_min w) (t_max w) && negb (is_inf (t_max w)).

(** The float [b] of a window whose upper end is not infinite. *)
Definition upper (w : TimeWindow) : Q :=
  match t_max w with
  | Fin q => q
  | PInf => 0
  end.

(** [Timebase._wrap], in exact arithmetic; [Float64._wrap] is the same
    function on doubles. *)
Definition _wrap (tb : Timebase) (t : Q) : result Q :=
  let a := t_min (window tb) in
  let b := t_max (window tb) in
  if WrapMode_eqb (wrap_mode tb) clamp || negb (finite (window tb)) then
    Ok (Qmax a (min_x t b))
  else
    let length := upper (window tb) - a in
    if Qeq_bool length 0 then Ok a
    else if WrapMode_eqb (wrap_mode tb) loop then
      r <- float_mod (t - a) length ;;
      Ok (a + r)
    else if WrapMode_eqb (wrap_mode tb) pingpong then
      m <- float_mod (t - a) (2 * length) ;;
      Ok (a + (if Qle_bool m length then m else 2 * length - m))
    else Ok t.

(** [eps = 1e-9] *)
Definition eps : Q := 1 # 1000000000.

(** [Timebase._wrap_with_bounce] *)
Definition _wrap_with_bounce (tb : Timebase) (t_before t_after : Q)
  : result (Q * bool) :=
  let a := t_min (window tb) in
  let b := t_max (window tb) in
  if WrapMode_eqb (wrap_mode tb) clamp || negb (finite (window tb)) then
    Ok (Qmax a (min_x t_after b), false)
  else if WrapMode_eqb (wrap_mode tb) loop then
    w <- _wrap tb t_after ;;
    Ok (w, false)
  else
    wrapped <- _wrap tb t_after ;;
    let b := upper (window tb) in
    let hit_left :=
      Qltb ((t_before - a) * (t_after - a)) 0
      || Qltb (Qabs (wrapped - a)) eps in
    let hit_right :=
      Qltb ((t_before - b) * (t_after - b)) 0
      || Qltb (Qabs (wrapped - b)) eps in
    Ok (wrapped, hit_left || hit_right).

(** *** Methods with effects *)

(** The outcome of a method that mutates the clock and may call back:
    the value, and the invocations made, oldest first. *)
Definition Eff (A : Type) : Type := result (A * list call).

Definition ret {A} (a : A) : Eff A := Ok (a, []).

Definition lift {A} (m : result A) : Eff A :=
  match m with
  | Ok a => Ok (a, [])
  | Raise e => Raise e
  end.

Definition bindE {A B} (m : Eff A) (f : A -> Eff B) : Eff B :=
  match m with
  | Raise e => Raise e
  | Ok (a, l) =>
      match f a with
      | Raise e => Raise e
      | Ok (b, l') => Ok (b, l ++ l')
      end
  end.

Notation "x <-- m ;; k" := (bindE m (fun x => k))
  (at level 61, m at next level, right associativity).

(** [Timebase.seek] *)
Definition seek (tb : Timebase) (t : Q) : Eff Timebase :=
  w <-- lift (_wrap tb t) ;;
  let tb := set_time tb w in
  ret (set_prev_time tb (_time tb)).

(** [Timebase.set_window] *)
Definition set_window (tb : Timebase) (t_min : Q) (t_max : xreal)
  : Eff Timebase :=
  let tb := set_window_value tb (mkTimeWindow t_min t_max) in
  seek tb (_time tb).

(** [Timebase.set_wrap] *)
Definition set_wrap (tb : Timebase) (mode : WrapMode) : Eff Timebase :=
  let tb := set_wrap_mode tb mode in
  seek tb (_time tb).

(** [Timebase.on] *)
Definition on (tb : Timebase) (t : Q) (fn : callback) : Timebase :=
  set_instant_cues tb (_instant_cues tb ++ [(t, fn)]).

(** [dict.get(key, False)] and [dict[key] = v] on [_range_state]. *)
Fixpoint state_get (st : list (range_key * bool)) (key : range_key) : bool :=
  match st with
  | [] => false
  | (k, v) :: rest => if range_key_eqb k key then v else state_get rest key
  end.

Fixpoint state_set (st : list (range_key * bool)) (key : range_key)
  (v : bool) : list (range_key * bool) :=
  match st with
  | [] => [(key, v)]
  | (k, v0) :: rest =>
      if range_key_eqb k key then (k, v) :: rest
      else (k, v0) :: state_set rest key v
  end.

(** [Timebase.on_range]; the default [on_exit] is a callback of its own. *)
Definition on_range (tb : Timebase) (t0 t1 : Q) (on_enter on_exit : callback)
  : Timebase :=
  let key := (t0, t1, List.length (_range_cues tb)) in
  let tb := set_range_cues tb (_range_cues tb ++ [(t0, t1, on_enter, on_exit)]) in
  set_range_state tb (state_set (_range_state tb) key false).

(** [Timebase.clear_cues] *)
Definition clear_cues (tb : Timebase) : Timebase :=
  set_range_state (set_range_cues (set_instant_cues tb []) []) [].

(** The local function [between] of [_fire_cues]. *)
Definition between (x u v : Q) : bool :=
  let '(lo, hi) := if Qle_bool u v then (u, v) else (v, u) in
  Qle_bool lo x && Qle_bool x hi.

(** The loop over [_instant_cues]. *)
Fixpoint fire_instant (t_prev t_now : Q) (cues : list (Q * callback))
  : list call :=
  match cues with
  | [] => []
  | (tc, fn) :: rest =>
      (if between tc t_prev t_now then [(fn, tc)] else [])
        ++ fire_instant t_prev t_now rest
  end.

(** The loop over [enumerate(_range_cues)], from index [idx] on: the
    state dictionary after it, and the invocations. *)
Fixpoint fire_range (t_now : Q) (idx : nat)
  (cues : list (Q * Q * callback * callback)) (st : list (range_key * bool))
  : list (range_key * bool) * list call :=
  match cues with
  | [] => (st, [])
  | (t0, t1, on_enter, on_exit) :: rest =>
      let key := (t0, t1, idx) in
      let inside_now := between t_now t0 t1 in
      let was_inside := state_get st key in
      if inside_now && negb was_inside then
        let '(st', l) := fire_range t_now (S idx) rest (state_set st key true) in
        (st', (on_enter, t_now) :: l)
      else if negb inside_now && was_inside then
        let '(st', l) := fire_range t_now (S idx) rest (state_set st key false) in
        (st', (on_exit, t_now) :: l)
      else fire_range t_now (S idx) rest st
  end.

(** [Timebase._fire_cues] *)
Definition _fire_cues (tb : Timebase) : Eff Timebase :=
  let t_prev := _prev_time tb in
  let t_now := _time tb in
  let l1 :=
    if negb (Qeq_bool t_prev t_now)
    then fire_instant t_prev t_now (_instant_cues tb)
    else [] in
  let r := fire_range t_now 0 (_range_cues tb) (_range_state tb) in
  Ok (set_range_state tb (fst r), l1 ++ snd r).

(** The locals [dt], [eff_rate] and [proposed] of [_step]. *)
Definition step_dt (tb : Timebase) (dt_real : Q) : Q :=
  if Qle_bool dt_real (clamp_dt tb) then dt_real else clamp_dt tb.

Definition eff_rate (tb : Timebase) : Q :=
  rate tb * (if WrapMode_eqb (wrap_mode tb) pingpong then _dir_sign tb else 1).

Definition proposed (tb : Timebase) (dt_real : Q) : Q :=
  _time tb + eff_rate tb * step_dt tb dt_real.

(** The assignments of [_step] once the new time is known: the flip of
    [_dir_sign], then [_prev_time] and [_time]. *)
Definition moved (tb : Timebase) (new : Q) (bounced : bool) : Timebase :=
  let old := _time tb in
  let tb :=
    if bounced && WrapMode_eqb (wrap_mode tb) pingpong
    then set_dir_sign tb (_dir_sign tb * (-1))
    else tb in
  let tb := set_prev_time tb old in
  set_time tb new.

(** [Timebase._step], the per-frame updater; [mob] is not used. *)
Definition _step (tb : Timebase) (dt_real : Q) : Eff Timebase :=
  if negb (running tb) then ret tb
  else
    r <-- lift (_wrap_with_bounce tb (_time tb) (proposed tb dt_real)) ;;
    _fire_cues (moved tb (fst r) (snd r)).

(** The specification calls the per-frame hook [advance]. *)
Definition advance (tb : Timebase) (dt_real : Q) : Eff Timebase :=
  _step tb dt_real.

(** A run of [advance] calls, one per [dt_real] of the list. *)
Fixpoint advances (tb : Timebase) (dts : list Q) : Eff Timebase :=
  match dts with
  | [] => ret tb
  | dt :: rest =>
      tb' <-- advance tb dt ;;
      advances tb' rest
  end.

(** Number of invocations of callback [fn] in a log. *)
Definition count_calls (fn : callback) (l : list call) : nat :=
  List.length (filter (fun c => String.eqb (fst c) fn) l).

(** The times read after each call of a run of [advance] calls. *)
Fixpoint trajectory (tb : Timebase) (dts : list Q) : list Q :=
  match dts with
  | [] => []
  | dt :: rest =>
      match advance tb dt with
      | Ok (tb', _) => _time tb' :: trajectory tb' rest
      | Raise _ => []
      end
  end.

(** The times read after each call, with the invocations that call made. *)
Fixpoint observe (tb : Timebase) (dts : list Q) : list (Q * list call) :=
  match dts with
  | [] => []
  | dt :: rest =>
      match advance tb dt with
      | Ok (tb', l) => (Qred (_time tb'), l) :: observe tb' rest
      | Raise _ => []
      end
  end.

(** The clock and the invocations a run of [advance] calls ends with. *)
Definition run (tb : Timebase) (dts : list Q) : Timebase * list call :=
  match advances tb dts with
  | Ok r => r
  | Raise _ => (tb, [])
  end.

(** How often a sequence of flags, read after the flag [prev], turns from
    false to true, and from true to false. *)
Fixpoint rises (prev : bool) (l : list bool) : nat :=
  match l with
  | [] => 0
  | x :: rest => (if negb prev && x then 1 else 0) + rises x rest
  end.

Fixpoint falls (prev : bool) (l : list bool) : nat :=
  match l with
  | [] => 0
  | x :: rest => (if prev && negb x then 1 else 0) + falls x rest
  end.


(** *** Vocabulary of the specification *)

(** The remainder [x mod y] computed by [float_mod] when it does not
    raise. *)
Definition fmod (x y : Q) : Q := x - y * inject_Z (Qfloor (x / y)).

(** The fold of the ping-pong policy. *)
Definition tri (m length : Q) : Q :=
  if Qle_bool m length then m else 2 * length - m.

(** [t_min <= time <= t_max]. *)
Definition contained (w : TimeWindow) (t : Q) : Prop :=
  t_min w <= t /\ le_x t (t_max w).

Definition in_window (tb : Timebase) : Prop :=
  contained (window tb) (_time tb).

(** [t_min <= t_max]. *)
Definition ordered (w : TimeWindow) : Prop := le_x (t_min w) (t_max w).

(** A window that is zero-length or inverted: [t_max] is finite and not
    above [t_min]. *)
Definition degenerate (w : TimeWindow) : Prop :=
  match t_max w with
  | Fin b => b <= t_min w
  | PInf => False
  end.

(** [x] and [y] lie on opposite sides of [c]. *)
Definition opposite_sides (x y c : Q) : Prop :=
  (x < c /\ c < y) \/ (y < c /\ c < x).

(** [x] lies in the closed interval spanned by [u] and [v]. *)
Definition in_span (x u v : Q) : Prop := Qmin u v <= x /\ x <= Qmax u v.

(** The direction multiplier is [+1] or [-1]. *)
Definition unit_dir (tb : Timebase) : Prop :=
  _dir_sign tb == 1 \/ _dir_sign tb == -1.

(** A list of times that never decreases. *)
Fixpoint nondecreasing (ts : list Q) : Prop :=
  match ts with
  | [] => True
  | t :: rest =>
      match rest with
      | [] => True
      | u :: _ => t <= u /\ nondecreasing rest
      end
  end.

(** The instant cues a segment triggers, as invocations, in registration
    order. *)
Definition triggered (t_prev t_now : Q) (cues : list (Q * callback))
  : list call :=
  map (fun c => (snd c, fst c))
    (filter (fun c => negb (Qeq_bool t_prev t_now)
                      && between (fst c) t_prev t_now) cues).

(** The invocations the range cues [cues], registered from index [idx]
    on, call for at time [t] when each cue is judged against its own flag
    in the dictionary [st]. *)
Fixpoint range_calls (t : Q) (idx : nat)
  (cues : list (Q * Q * callback * callback)) (st : list (range_key * bool))
  : list call :=
  match cues with
  | [] => []
  | (t0, t1, on_enter, on_exit) :: rest =>
      (if between t t0 t1 && negb (state_get st (t0, t1, idx))
       then [(on_enter, t)]
       else if negb (between t t0 t1) && state_get st (t0, t1, idx)
       then [(on_exit, t)]
       else [])
        ++ range_calls t (S idx) rest st
  end.

(** Two clocks that agree on everything but their cues. *)
Definition same_motion (tb tb' : Timebase) : Prop :=
  _time tb = _time tb'
  /\ _rate tb = _rate tb'
  /\ _running tb = _running tb'
  /\ wrap_mode tb = wrap_mode tb'
  /\ window tb = window tb'
  /\ clamp_dt tb = clamp_dt tb'
  /\ _dir_sign tb = _dir_sign tb'.


(** ** src/coordinates.py *)

Module Coordinates.

Record Coords : Type := mkCoords {
  meters_per_unit : Q;
  origin_scene : Q * Q;
  x_right : Z;
  y_up : Z
}.

(** [Coords.__post_init__]: the validation the dataclass runs at
    construction. *)
Definition __post_init__ (c : Coords) : result Coords :=
  if Qeq_bool (meters_per_unit c) 0 then
    Raise (ValueError "meters_per_unit cannot be zero")
  else if negb (Z.eqb (x_right c) (-1) || Z.eqb (x_right c) 1) then
    Raise (ValueError "x_right must be +1 or -1")
  else if negb (Z.eqb (y_up c) (-1) || Z.eqb (y_up c) 1) then
    Raise (ValueError "y_up must be +1 or -1")
  else Ok c.

Definition world_len_to_scene (c : Coords) (meters : Q) : result Q :=
  if Qeq_bool (meters_per_unit c) 0 then
    Raise (ValueError "The meters_per_unit conversion cannot be zero.")
  else Ok (meters / meters_per_unit c).

Definition scene_len_to_world (c : Coords) (scene_units : Q) : Q :=
  scene_units * meters_per_unit c.

(** The array [[sc_x, sc_y, 0.0]]. *)
Definition world_to_scene_point (c : Coords) (x_m y_m : Q)
  : result (Q * Q * Q) :=
  lx <- world_len_to_scene c x_m ;;
  let sc_x := fst (origin_scene c) + inject_Z (x_right c) * lx in
  ly <- world_len_to_scene c y_m ;;
  let sc_y := snd (origin_scene c) + inject_Z (y_up c) * ly in
  Ok (sc_x, sc_y, 0).

(** The array [[world_x, world_y]]. *)
Definition scene_to_world_point (c : Coords) (x_sc y_sc : Q) : Q * Q :=
  let dx_scene := (x_sc - fst (origin_scene c)) * inject_Z (x_right c) in
  let dy_scene := (y_sc - snd (origin_scene c)) * inject_Z (y_up c) in
  let world_x := scene_len_to_world c dx_scene in
  let world_y := scene_len_to_world c dy_scene in
  (world_x, world_y).

End Coordinates.

(** ** The boundary policy over binary64 floats

    The arithmetic of [Timebase._wrap] and of the proposed time of
    [Timebase._step] on IEEE 754 doubles, as Python computes it, for the
    places where rounding decides the outcome. *)

Module Float64.

Import PrimFloat SpecFloat FloatOps.
Local Open Scope bool_scope.
Local Open Scope float_scope.

(** The double of value [m * 2^e], negated when [neg]. *)
Definition of_scaled (neg : bool) (m e : Z) : float :=
  SF2Prim (binary_normalize prec emax (if neg then (- m)%Z else m) e false).

(** C's [fmod]: the exact remainder of [x] by [y], with the sign of
    [x]. *)
Definition fmod (x y : float) : float :=
  match Prim2SF x, Prim2SF y with
  | S754_nan, _ | _, S754_nan => nan
  | S754_infinity _, _ => nan
  | _, S754_zero _ => nan
  | _, S754_infinity _ => x
  | S754_zero _, _ => x
  | S754_finite sx mx ex, S754_finite _ my ey =>
      let e := Z.min ex ey in
      let X := (Zpos mx * 2 ^ (ex - e))%Z in
      let Y := (Zpos my * 2 ^ (ey - e))%Z in
      let R := (X mod Y)%Z in
      if (R =? 0)%Z then (if sx then neg_zero else zero)
      else of_scaled sx R e
  end.

(** Python's [x % y] on floats: [fmod], moved by [y] when its sign
    differs from that of [y]; a zero divisor raises. *)
Definition float_mod (x y : float) : result float :=
  if y =? 0 then Raise ZeroDivisionError
  else
    let m := fmod x y in
    if negb (m =? 0) then
      Ok (if negb (Bool.eqb (y <? 0) (m <? 0)) then m + y else m)
    else Ok (if y <? 0 then neg_zero else zero).

(** Python's [max(a, x)] and [min(t, b)] of two floats. *)
Definition max (a x : float) : float := if a <? x then x else a.
Definition min (t b : float) : float := if b <? t then b else t.

(** [Timebase._wrap] for the window [[a, b]] under [mode]. *)
Definition _wrap (mode : WrapMode) (a b t : float) : result float :=
  let finite := (a <? b) && negb (b =? infinity) in
  if WrapMode_eqb mode clamp || negb finite then Ok (max a (min t b))
  else
    let length := b - a in
    if length =? 0 then Ok a
    else if WrapMode_eqb mode loop then
      r <- float_mod (t - a) length ;;
      Ok (a + r)
    else if WrapMode_eqb mode pingpong then
      m <- float_mod (t - a) (2 * length) ;;
      Ok (a + (if m <=? length then m else 2 * length - m))
    else Ok t.

(** The proposed time of [Timebase._step]: [old + eff_rate * dt] with
    [dt] the real delta capped at [clamp_dt]. *)
Definition proposed (old eff_rate dt_real clamp_dt : float) : float :=
  old + eff_rate * (if dt_real <=? clamp_dt then dt_real else clamp_dt).

End Float64.

(** ** Concrete clocks and coordinate frames *)

(** A loop clock over the zero-length window [[1, 1]]. *)
Definition tb_zero_loop : Timebase :=
  __init__ 0 1 loop (mkTimeWindow 1 (Fin 1)) default_clamp_dt.

(** A ping-pong clock over the inverted window [[3, 1]]. *)
Definition tb_inverted_pingpong : Timebase :=
  __init__ 0 1 pingpong (mkTimeWindow 3 (Fin 1)) default_clamp_dt.

(** A clamp clock over [[0, 2]] constructed at [t0 = 5]. *)
Definition tb_outside : Timebase :=
  __init__ 5 1 clamp (mkTimeWindow 0 (Fin 2)) default_clamp_dt.

(** A clamp clock over [[0, 2]] constructed at [t0 = 1]. *)
Definition tb_inside : Timebase :=
  __init__ 1 1 clamp (mkTimeWindow 0 (Fin 2)) default_clamp_dt.

(** The clock of the end-to-end scenario: ping-pong over [[0, 2]] from
    [t0 = 0] at rate 1 with the default [clamp_dt], and an instant cue at
    1.0. *)
Definition tb_demo : Timebase :=
  on (__init__ 0 1 pingpong (mkTimeWindow 0 (Fin 2)) default_clamp_dt)
     1 "cue"%string.

(** The same clock constructed with [clamp_dt = 0.5]. *)
Definition tb_demo_half : Timebase :=
  on (__init__ 0 1 pingpong (mkTimeWindow 0 (Fin 2)) (1 # 2)) 1 "cue"%string.

(** A ping-pong clock over [[0, 2]] one capped step below [t_max]. *)
Definition tb_pingpong_edge : Timebase :=
  __init__ (59 # 30) 1 pingpong (mkTimeWindow 0 (Fin 2)) default_clamp_dt.

(** A loop clock over [[0, 2]] one capped step below [t_max]. *)
Definition tb_loop_edge : Timebase :=
  __init__ (59 # 30) 1 loop (mkTimeWindow 0 (Fin 2)) default_clamp_dt.

(** A clamp clock with [clamp_dt = 0.5] and an instant cue at 0.25; the
    same clock after one [advance(0.5)], then paused. *)
Definition tb_quarter : Timebase :=
  on (__init__ 0 1 clamp default_window (1 # 2)) (1 # 4) "cue"%string.

Definition tb_quarter_paused : Timebase :=
  match advance tb_quarter (1 # 2) with
  | Ok (tb', _) => pause tb'
  | Raise _ => tb_quarter
  end.


(** A clamp clock over the default window with [clamp_dt = 0.5], before
    any cue is registered. *)
Definition tb_plain : Timebase :=
  __init__ 0 1 clamp default_window (1 # 2).


(** A ping-pong clock over [[0, 2]] at 1.75 with [clamp_dt = 0.5]. *)
Definition tb_pingpong_high : Timebase :=
  __init__ (7 # 4) 1 pingpong (mkTimeWindow 0 (Fin 2)) (1 # 2).

(** A clamp clock over [[0, 2]] sitting at [t_max], with an instant cue
    there. *)
Definition tb_pinned : Timebase :=
  on (__init__ 2 1 clamp (mkTimeWindow 0 (Fin 2)) (1 # 2)) 2 "end"%string.

(** A clamp clock over [[0, 2]] at 1 with rate 0 and an instant cue
    there. *)
Definition tb_still : Timebase :=
  on (__init__ 1 0 clamp (mkTimeWindow 0 (Fin 2)) (1 # 2)) 1 "here"%string.



(** A ping-pong clock over [[0, 2]] half a second below [t_max], with
    [clamp_dt = 0.5]. *)
Definition tb_pingpong_near : Timebase :=
  __init__ (3 # 2) 1 pingpong (mkTimeWindow 0 (Fin 2)) (1 # 2).


(** A ping-pong clock over [[0, 3]] with [clamp_dt = 0.5] and the range
    cue of the pairing scenario. *)
Definition tb_bounce_back : Timebase :=
  on_range (__init__ 0 1 pingpong (mkTimeWindow 0 (Fin 3)) (1 # 2))
    1 2 "enter"%string "exit"%string.

(** A clamp clock over the default window at rate 2 with [clamp_dt = 2],
    before any cue is registered. *)
Definition tb_fast : Timebase :=
  __init__ 0 2 clamp default_window 2.

(** A clamp clock with [clamp_dt = 1.5] holding two range cues over the
    same interval [[1, 2]]. *)
Definition tb_two_ranges : Timebase :=
  on_range
    (on_range (__init__ 0 1 clamp default_window (3 # 2))
       1 2 "enter_a"%string "exit_a"%string)
    1 2 "enter_b"%string "exit_b"%string.

(** A frame with two metres per unit, origin at [(1, -1)] and the x axis
    pointing left. *)
Definition frame_left : Coordinates.Coords :=
  Coordinates.mkCoords 2 (1, -1) (-1) 1.

(** * Properties *)

(** ** Comparisons and the floating remainder *)

Section Numeric.

Lemma Qltb_true (x y : Q) : Qltb x y = true <-> x < y.
Proof.
  unfold Qltb. rewrite Qlt_alt. destruct (x ?= y); split; congruence.
Qed.

Lemma Qltb_false (x y : Q) : Qltb x y = false <-> y <= x.
Proof.
  rewrite <- not_true_iff_false, Qltb_true. split.
  - apply Qnot_lt_le.
  - apply Qle_not_lt.
Qed.

Lemma Qle_bool_false (x y : Q) : Qle_bool x y = false <-> y < x.
Proof.
  rewrite <- not_true_iff_false, Qle_bool_iff. split.
  - apply Qnot_le_lt.
  - apply Qlt_not_le.
Qed.

Lemma Qeq_bool_false (x y : Q) : Qeq_bool x y = false <-> ~ x == y.
Proof.
  rewrite <- not_true_iff_false, Qeq_bool_iff. tauto.
Qed.

Lemma lt_x_Fin (x q : Q) : lt_x x (Fin q) = Qltb x q.
Proof. reflexivity. Qed.

Lemma Qfloor_unique (x : Q) (z : Z) :
  inject_Z z <= x -> x < inject_Z (z + 1) -> Qfloor x = z.
Proof.
  intros Hlo Hhi.
  pose proof (Qfloor_le x) as Hf. pose proof (Qlt_floor x) as Hg.
  assert (H1 : (Qfloor x < z + 1)%Z).
  { rewrite Zlt_Qlt. eapply Qle_lt_trans; eassumption. }
  assert (H2 : (z < Qfloor x + 1)%Z).
  { rewrite Zlt_Qlt. eapply Qle_lt_trans; eassumption. }
  lia.
Qed.

Lemma float_mod_fmod (x y : Q) : ~ y == 0 -> float_mod x y = Ok (fmod x y).
Proof.
  intros Hy. unfold float_mod.
  apply Qeq_bool_false in Hy. rewrite Hy. reflexivity.
Qed.

Lemma fmod_bounds (x y : Q) : 0 < y -> 0 <= fmod x y /\ fmod x y < y.
Proof.
  intros Hy. unfold fmod.
  pose proof (Qfloor_le (x / y)) as Hf. pose proof (Qlt_floor (x / y)) as Hg.
  rewrite inject_Z_plus in Hg. change (inject_Z 1) with 1 in Hg.
  set (f := inject_Z (Qfloor (x / y))) in *.
  assert (Hx : x == y * (x / y)) by (field; lra).
  set (q := x / y) in *. clearbody q f.
  assert (H1 : 0 <= y * (q - f)) by (apply Qmult_le_0_compat; lra).
  assert (H2 : 0 < y * (f + 1 - q)) by (apply Qmult_lt_0_compat; lra).
  split; lra.
Qed.

Lemma Qfloor_shift (x y : Q) (k : Z) :
  0 < y -> Qfloor ((x + y * inject_Z k) / y) = (Qfloor (x / y) + k)%Z.
Proof.
  intros Hy.
  assert (E : (x + y * inject_Z k) / y == x / y + inject_Z k) by (field; lra).
  apply Qfloor_unique.
  - rewrite inject_Z_plus, E. pose proof (Qfloor_le (x / y)). lra.
  - rewrite !inject_Z_plus, E. pose proof (Qlt_floor (x / y)) as Hg.
    rewrite inject_Z_plus in Hg. lra.
Qed.

Lemma fmod_shift (x y : Q) (k : Z) :
  0 < y -> fmod (x + y * inject_Z k) y == fmod x y.
Proof.
  intros Hy. unfold fmod.
  rewrite (Qfloor_shift x y k Hy), inject_Z_plus. ring.
Qed.

Lemma fmod_decomp (x y : Q) : x == fmod x y + y * inject_Z (Qfloor (x / y)).
Proof. unfold fmod. ring. Qed.

Lemma fmod_small (x y : Q) : 0 <= x -> x < y -> fmod x y == x.
Proof.
  intros H0 H1. unfold fmod.
  assert (Hk : Qfloor (x / y) = 0%Z).
  { apply Qfloor_unique.
    - change (inject_Z 0) with 0. apply Qle_shift_div_l; lra.
    - change (inject_Z (0 + 1)) with 1. apply Qlt_shift_div_r; lra. }
  rewrite Hk. change (inject_Z 0) with 0. ring.
Qed.

#[global] Instance fmod_Proper : Proper (Qeq ==> Qeq ==> Qeq) fmod.
Proof.
  intros x x' Hx y y' Hy. unfold fmod.
  assert (E : Qfloor (x / y) = Qfloor (x' / y')).
  { apply Qfloor_comp. rewrite Hx, Hy. reflexivity. }
  rewrite E, Hx, Hy. reflexivity.
Qed.

Lemma tri_bounds (m len : Q) :
  0 <= m -> m < 2 * len -> 0 <= tri m len /\ tri m len <= len.
Proof.
  intros H0 H1. unfold tri.
  destruct (Qle_bool m len) eqn:E.
  - apply Qle_bool_iff in E. lra.
  - apply Qle_bool_false in E. lra.
Qed.

Lemma tri_Proper_l (m m' len : Q) : m == m' -> tri m len == tri m' len.
Proof.
  intros H. unfold tri.
  destruct (Qle_bool m len) eqn:E, (Qle_bool m' len) eqn:E';
    try apply Qle_bool_iff in E; try apply Qle_bool_iff in E';
    try apply Qle_bool_false in E; try apply Qle_bool_false in E'; lra.
Qed.

End Numeric.

(** ** The boundary policy [_wrap] *)

(** Case analysis on every [Qmax], [Qmin] and [Qabs] of the goal. *)
Ltac case_max x y :=
  let H := fresh in let m := fresh "m" in
  pose proof (Q.max_spec x y) as H;
  set (m := Qmax x y) in *; clearbody m;
  destruct H as [[? ?] | [? ?]].

Ltac case_min x y :=
  let H := fresh in let m := fresh "m" in
  pose proof (Q.min_spec x y) as H;
  set (m := Qmin x y) in *; clearbody m;
  destruct H as [[? ?] | [? ?]].

Ltac split_minmax :=
  repeat match goal with
  | |- context [Qmin ?x ?y] => case_min x y
  | _ : context [Qmin ?x ?y] |- _ => case_min x y
  | |- context [Qmax ?x ?y] => case_max x y
  | _ : context [Qmax ?x ?y] |- _ => case_max x y
  end.

Ltac split_abs :=
  repeat match goal with
  | |- context [Qabs ?x] =>
      let m := fresh "m" in
      let H := fresh in
      assert (H : (0 <= x /\ Qabs x == x) \/ (x <= 0 /\ Qabs x == - x))
        by (apply (Qabs_case x (fun r => (0 <= x /\ r == x) \/ (x <= 0 /\ r == - x)));
            intros; [left | right]; split; auto; reflexivity);
      set (m := Qabs x) in *; clearbody m;
      destruct H as [[? ?] | [? ?]]
  end.

Section Wrap.

Variable tb : Timebase.

Let a : Q := t_min (window tb).

Lemma finite_spec (w : TimeWindow) :
  finite w = true <-> exists b, t_max w = Fin b /\ t_min w < b.
Proof.
  unfold finite. destruct (t_max w) as [b |]; simpl.
  - rewrite andb_true_r. fold (Qltb (t_min w) b). rewrite Qltb_true.
    split.
    + intros H. exists b. auto.
    + intros [b' [E H]]. injection E as ->. exact H.
  - split; [discriminate | intros [b' [E _]]; discriminate].
Qed.

Lemma finite_false_spec (w : TimeWindow) :
  finite w = false <-> t_max w = PInf \/ degenerate w.
Proof.
  unfold finite, degenerate. destruct (t_max w) as [b |]; simpl.
  - rewrite andb_true_r. fold (Qltb (t_min w) b). rewrite Qltb_false.
    split; [auto | intros [E | H]; [discriminate | exact H]].
  - split; auto.
Qed.

Lemma _wrap_fallback (t : Q) :
  wrap_mode tb = clamp \/ finite (window tb) = false ->
  _wrap tb t = Ok (Qmax a (min_x t (t_max (window tb)))).
Proof.
  unfold _wrap. intros [H | H]; rewrite H; simpl.
  - reflexivity.
  - rewrite orb_true_r. reflexivity.
Qed.

Lemma _wrap_loop (t b : Q) :
  wrap_mode tb = loop -> t_max (window tb) = Fin b -> a < b ->
  _wrap tb t = Ok (a + fmod (t - a) (b - a)).
Proof.
  intros Hm Hb Hlt. unfold _wrap.
  assert (Hf : finite (window tb) = true) by (apply finite_spec; eauto).
  rewrite Hm, Hf. simpl. unfold upper. rewrite Hb. fold a.
  assert (Hz : ~ b - a == 0) by lra.
  pose proof Hz as Hz'. apply Qeq_bool_false in Hz'. rewrite Hz'.
  rewrite (float_mod_fmod _ _ Hz). reflexivity.
Qed.

Lemma _wrap_pingpong (t b : Q) :
  wrap_mode tb = pingpong -> t_max (window tb) = Fin b -> a < b ->
  _wrap tb t = Ok (a + tri (fmod (t - a) (2 * (b - a))) (b - a)).
Proof.
  intros Hm Hb Hlt. unfold _wrap.
  assert (Hf : finite (window tb) = true) by (apply finite_spec; eauto).
  rewrite Hm, Hf. simpl. unfold upper. rewrite Hb. fold a.
  assert (Hz : ~ b - a == 0) by lra.
  apply Qeq_bool_false in Hz. rewrite Hz.
  assert (Hz2 : ~ 2 * (b - a) == 0) by lra.
  rewrite (float_mod_fmod _ _ Hz2). reflexivity.
Qed.

(** [_wrap] never raises. *)
Lemma _wrap_total (t : Q) : exists v, _wrap tb t = Ok v.
Proof.
  destruct (finite (window tb)) eqn:Hf.
  - apply finite_spec in Hf. destruct Hf as [b [Hb Hlt]].
    destruct (wrap_mode tb) eqn:Hm.
    + eexists. apply _wrap_fallback. auto.
    + eexists. apply (_wrap_loop t b); auto.
    + eexists. apply (_wrap_pingpong t b); auto.
  - eexists. apply _wrap_fallback. auto.
Qed.

(** Whatever the mode, the result lies in an ordered window. *)
Lemma _wrap_contained (t v : Q) :
  ordered (window tb) -> _wrap tb t = Ok v -> contained (window tb) v.
Proof.
  intros Ho Hw. unfold contained, ordered in *. fold a in Ho |- *.
  destruct (finite (window tb)) eqn:Hf.
  - apply finite_spec in Hf. destruct Hf as [b [Hb Hlt]]. fold a in Hlt.
    rewrite Hb in *. simpl in *.
    destruct (wrap_mode tb) eqn:Hm.
    + rewrite _wrap_fallback in Hw by auto. injection Hw as <-.
      rewrite Hb. simpl. split_minmax; lra.
    + rewrite (_wrap_loop t b) in Hw by auto. injection Hw as <-.
      destruct (fmod_bounds (t - a) (b - a)); lra.
    + rewrite (_wrap_pingpong t b) in Hw by auto. injection Hw as <-.
      destruct (fmod_bounds (t - a) (2 * (b - a))) as [H0 H1]; [lra |].
      destruct (tri_bounds _ (b - a) H0 H1). lra.
  - rewrite _wrap_fallback in Hw by auto. injection Hw as <-.
    destruct (t_max (window tb)) as [b |]; simpl in *.
    + split_minmax; lra.
    + split; [| exact I]. split_minmax; lra.
Qed.

End Wrap.

(** ** Seeking and stepping *)

Section Step.

Variable tb : Timebase.

Lemma seek_eq (t v : Q) :
  _wrap tb t = Ok v -> seek tb t = Ok (set_prev_time (set_time tb v) v, []).
Proof. intros H. unfold seek. rewrite H. reflexivity. Qed.

(** [_wrap_with_bounce] returns the time [_wrap] returns. *)
Lemma _wrap_with_bounce_value (t_before t_after : Q) :
  exists v bounced,
    _wrap_with_bounce tb t_before t_after = Ok (v, bounced)
    /\ _wrap tb t_after = Ok v.
Proof.
  destruct (_wrap_total tb t_after) as [v Hv].
  unfold _wrap_with_bounce.
  destruct (WrapMode_eqb (wrap_mode tb) clamp || negb (finite (window tb)))
    eqn:E.
  - exists (Qmax (t_min (window tb)) (min_x t_after (t_max (window tb)))), false.
    split; [reflexivity |]. apply _wrap_fallback.
    apply orb_true_iff in E. destruct E as [E | E].
    + left. destruct (wrap_mode tb); simpl in E; congruence.
    + right. apply negb_true_iff in E. exact E.
  - rewrite Hv. simpl.
    destruct (WrapMode_eqb (wrap_mode tb) loop); eauto.
Qed.

Lemma advance_paused (dt : Q) :
  running tb = false -> advance tb dt = Ok (tb, []).
Proof. intros H. unfold advance, _step. rewrite H. reflexivity. Qed.

Lemma advance_running (dt v : Q) (bounced : bool) :
  running tb = true ->
  _wrap_with_bounce tb (_time tb) (proposed tb dt) = Ok (v, bounced) ->
  advance tb dt = _fire_cues (moved tb v bounced).
Proof.
  intros H Hw. unfold advance, _step. rewrite H, Hw. reflexivity.
Qed.

(** [advance] never raises. *)
Lemma advance_total (dt : Q) : exists tb' l, advance tb dt = Ok (tb', l).
Proof.
  destruct (running tb) eqn:H.
  - destruct (_wrap_with_bounce_value (_time tb) (proposed tb dt))
      as [v [bn [Hw _]]].
    rewrite (advance_running dt v bn H Hw). unfold _fire_cues. eauto.
  - rewrite (advance_paused dt H). eauto.
Qed.

End Step.

Lemma advances_total (dts : list Q) :
  forall tb, exists tb' l, advances tb dts = Ok (tb', l).
Proof.
  induction dts as [| dt rest IH]; intros tb; simpl.
  - unfold ret. eauto.
  - destruct (advance_total tb dt) as [tb1 [l1 H1]]. rewrite H1. simpl.
    destruct (IH tb1) as [tb2 [l2 H2]]. rewrite H2. eauto.
Qed.

(** What a call of [advance] on a running clock does, field by field. *)
Lemma advance_running_spec (tb : Timebase) (dt : Q) :
  running tb = true ->
  exists v bounced tb' l,
    _wrap_with_bounce tb (_time tb) (proposed tb dt) = Ok (v, bounced)
    /\ _wrap tb (proposed tb dt) = Ok v
    /\ advance tb dt = Ok (tb', l)
    /\ _time tb' = v
    /\ _prev_time tb' = _time tb
    /\ window tb' = window tb
    /\ wrap_mode tb' = wrap_mode tb
    /\ _dir_sign tb' =
         (if bounced && WrapMode_eqb (wrap_mode tb) pingpong
          then _dir_sign tb * (-1) else _dir_sign tb)
    /\ _instant_cues tb' = _instant_cues tb
    /\ _range_cues tb' = _range_cues tb
    /\ _range_state tb' =
         fst (fire_range v 0 (_range_cues tb) (_range_state tb))
    /\ l = (if negb (Qeq_bool (_time tb) v)
            then fire_instant (_time tb) v (_instant_cues tb) else [])
           ++ snd (fire_range v 0 (_range_cues tb) (_range_state tb)).
Proof.
  intros Hr.
  destruct (_wrap_with_bounce_value tb (_time tb) (proposed tb dt))
    as [v [bn [Hw Hv]]].
  exists v, bn. rewrite (advance_running tb dt v bn Hr Hw).
  unfold _fire_cues, moved.
  destruct (bn && WrapMode_eqb (wrap_mode tb) pingpong);
    (do 2 eexists; repeat split; try reflexivity; assumption).
Qed.

(** ** Claims about seeking and the window *)

(** C6.  For every clock and every [t], [seek(t)] sets [time] to
    [wrap(t)], sets [prev_time] to that new time and invokes no callback,
    instant or range, whatever cues are registered; the cue registries
    and the range flags are left as they were. *)
Theorem seek_relocates_without_cues (tb : Timebase) (t : Q) :
  exists v tb',
    _wrap tb t = Ok v
    /\ seek tb t = Ok (tb', [])
    /\ _time tb' = v
    /\ _prev_time tb' = _time tb'
    /\ _instant_cues tb' = _instant_cues tb
    /\ _range_cues tb' = _range_cues tb
    /\ _range_state tb' = _range_state tb.
Proof.
  destruct (_wrap_total tb t) as [v Hv].
  exists v. eexists. split; [exact Hv |].
  split; [apply seek_eq; exact Hv |].
  repeat split.
Qed.

(** C1, as stated, fails: on a loop clock over the zero-length window
    [[1, 1]] and on a ping-pong clock over the inverted window [[3, 1]],
    [wrap(5)] returns [t_min] and [seek(5)] returns normally; no error
    reaches the caller. *)
Lemma degenerate_window_wraps_silently :
  (degenerate (window tb_zero_loop)
   /\ wrap_mode tb_zero_loop = loop
   /\ _wrap tb_zero_loop 5 = Ok 1
   /\ (forall e, seek tb_zero_loop 5 <> Raise e))
  /\ (degenerate (window tb_inverted_pingpong)
      /\ wrap_mode tb_inverted_pingpong = pingpong
      /\ _wrap tb_inverted_pingpong 5 = Ok 3
      /\ (forall e, seek tb_inverted_pingpong 5 <> Raise e)).
Proof.
  split; (split; [unfold degenerate; simpl; lra |]);
    (split; [reflexivity |]); (split; [reflexivity |]);
    intros e; vm_compute; discriminate.
Qed.

(** C1, amended.  For every clock whose window is zero-length or
    inverted, under every wrap mode, [wrap(t)] raises nothing and returns
    the clamp formula [max(t_min, min(t, t_max))], which is [t_min];
    [seek] and [advance] return normally, and leave [time] at that
    value. *)
Theorem degenerate_window_falls_back_to_clamp (tb : Timebase) (t dt : Q) :
  degenerate (window tb) ->
  exists v tb1 tb2 l,
    _wrap tb t = Ok v
    /\ v = Qmax (t_min (window tb)) (min_x t (t_max (window tb)))
    /\ v == t_min (window tb)
    /\ seek tb t = Ok (tb1, [])
    /\ _time tb1 = v
    /\ advance tb dt = Ok (tb2, l)
    /\ (running tb = true -> _time tb2 == t_min (window tb)).
Proof.
  intros Hd.
  assert (Hf : finite (window tb) = false)
    by (apply finite_false_spec; right; exact Hd).
  assert (Hv : forall u,
             Qmax (t_min (window tb)) (min_x u (t_max (window tb)))
             == t_min (window tb)).
  { intros u. unfold degenerate in Hd.
    destruct (t_max (window tb)) as [b |]; [| contradiction].
    simpl. split_minmax; lra. }
  pose proof (_wrap_fallback tb t (or_intror Hf)) as Hw.
  destruct (advance_total tb dt) as [tb2 [l Ha]].
  eexists. eexists. exists tb2, l.
  split; [exact Hw |]. split; [reflexivity |]. split; [apply Hv |].
  split; [apply seek_eq; exact Hw |]. split; [reflexivity |].
  split; [exact Ha |].
  intros Hr.
  destruct (advance_running_spec tb dt Hr)
    as [v [bn [tb' [l' [_ [Hw' [Ha' [Ht _]]]]]]]].
  rewrite Ha in Ha'. injection Ha' as -> ->.
  rewrite (_wrap_fallback tb _ (or_intror Hf)) in Hw'.
  injection Hw' as <-. rewrite Ht. apply Hv.
Qed.

Lemma degenerate_window_falls_back_to_clamp_witness :
  exists v tb1 tb2 l,
    _wrap tb_zero_loop 5 = Ok v
    /\ v = Qmax (t_min (window tb_zero_loop))
                (min_x 5 (t_max (window tb_zero_loop)))
    /\ v == t_min (window tb_zero_loop)
    /\ seek tb_zero_loop 5 = Ok (tb1, [])
    /\ _time tb1 = v
    /\ advance tb_zero_loop 1 = Ok (tb2, l)
    /\ (running tb_zero_loop = true -> _time tb2 == t_min (window tb_zero_loop)).
Proof.
  apply (degenerate_window_falls_back_to_clamp tb_zero_loop 5 1).
  unfold degenerate; simpl. lra.
Defined.

(** C3, as stated, fails: a clock constructed at [t0 = 5] over the
    window [[0, 2]] has [t_min <= t_max] and reads [time = 5]. *)
Lemma constructed_time_outside_window :
  ordered (window tb_outside) /\ ~ in_window tb_outside.
Proof.
  split.
  - unfold ordered; simpl. lra.
  - unfold in_window, contained; simpl. lra.
Qed.

(** C3, amended.  Construction stores [t0] as it is, so the fresh clock
    is inside its window exactly when [t0] is.  For a window with
    [t_min <= t_max], [time] lies in [[t_min, t_max]] after every [seek],
    [set_window], [set_wrap] and every [advance] made while running; an
    [advance] made while paused changes nothing; hence a clock that is
    inside its window stays inside it.  Under clamp, and over a window
    that is not finite, the new time is one of [t_min], [t_max] and the
    proposed time; under loop and ping-pong over a finite window the
    statement is one of exact arithmetic. *)
Theorem time_within_window (tb : Timebase) :
  (forall t0 r m w c, in_window (__init__ t0 r m w c) <-> contained w t0)
  /\ (ordered (window tb) -> forall t,
        exists tb', seek tb t = Ok (tb', [])
                    /\ window tb' = window tb /\ in_window tb')
  /\ (forall a b, le_x a b ->
        exists tb', set_window tb a b = Ok (tb', [])
                    /\ window tb' = mkTimeWindow a b /\ in_window tb')
  /\ (ordered (window tb) -> forall m,
        exists tb', set_wrap tb m = Ok (tb', [])
                    /\ window tb' = window tb /\ in_window tb')
  /\ (ordered (window tb) -> forall dt,
        exists tb' l, advance tb dt = Ok (tb', l)
                      /\ window tb' = window tb
                      /\ (running tb = true -> in_window tb')
                      /\ (running tb = false -> tb' = tb)
                      /\ (in_window tb -> in_window tb')).
Proof.
  assert (Hseek : forall tb0 t, ordered (window tb0) ->
            exists tb', seek tb0 t = Ok (tb', [])
                        /\ window tb' = window tb0 /\ in_window tb').
  { intros tb0 t Ho. destruct (_wrap_total tb0 t) as [v Hv].
    eexists. split; [apply seek_eq; exact Hv |]. split; [reflexivity |].
    apply (_wrap_contained tb0 t v Ho Hv). }
  split; [intros; reflexivity |].
  split; [intros Ho t; apply Hseek; exact Ho |].
  split.
  { intros a b Hab. unfold set_window.
    apply (Hseek (set_window_value tb (mkTimeWindow a b))). exact Hab. }
  split.
  { intros Ho m. unfold set_wrap. apply (Hseek (set_wrap_mode tb m)).
    exact Ho. }
  intros Ho dt. destruct (running tb) eqn:Hr.
  - destruct (advance_running_spec tb dt Hr)
      as [v [bn [tb' [l [_ [Hw [Ha [Ht [_ [Hwin _]]]]]]]]]].
    exists tb', l. split; [exact Ha |].
    assert (Hin : in_window tb').
    { unfold in_window. rewrite Hwin, Ht.
      apply (_wrap_contained tb _ v Ho Hw). }
    split; [exact Hwin |]. split; [intros _; exact Hin |].
    split; [discriminate | intros _; exact Hin].
  - exists tb, []. split; [apply advance_paused; exact Hr |].
    split; [reflexivity |]. split; [discriminate |].
    split; [reflexivity | auto].
Qed.

Lemma time_within_window_witness :
  (exists tb', seek tb_outside 7 = Ok (tb', [])
               /\ window tb' = window tb_outside /\ in_window tb')
  /\ (exists tb' l, advance tb_outside 1 = Ok (tb', l)
                    /\ window tb' = window tb_outside
                    /\ (running tb_outside = true -> in_window tb')
                    /\ (running tb_outside = false -> tb' = tb_outside)
                    /\ (in_window tb_outside -> in_window tb')).
Proof.
  assert (Ho : ordered (window tb_outside)) by (unfold ordered; simpl; lra).
  destruct (time_within_window tb_outside) as [_ [Hs [_ [_ Ha]]]].
  split; [apply (Hs Ho 7) | apply (Ha Ho 1)].
Defined.

(** ** Bounces and the direction multiplier *)

Lemma opposite_sides_product (x y c : Q) :
  opposite_sides x y c <-> (x - c) * (y - c) < 0.
Proof.
  unfold opposite_sides. split.
  - intros [[H1 H2] | [H1 H2]].
    + assert (H : 0 < (c - x) * (y - c)) by (apply Qmult_lt_0_compat; lra).
      lra.
    + assert (H : 0 < (x - c) * (c - y)) by (apply Qmult_lt_0_compat; lra).
      lra.
  - intros H.
    destruct (Qlt_le_dec x c) as [Hx | Hx], (Qlt_le_dec c y) as [Hy | Hy];
      auto.
    + assert (H' : 0 <= (c - x) * (c - y)) by (apply Qmult_le_0_compat; lra).
      lra.
    + assert (H' : 0 <= (x - c) * (y - c)) by (apply Qmult_le_0_compat; lra).
      lra.
    + destruct (Qlt_le_dec y c) as [Hy' | Hy'].
      * destruct (Qlt_le_dec c x) as [Hx' | Hx']; auto.
        assert (E : x == c) by lra. rewrite E in H. lra.
      * assert (E : y == c) by lra. rewrite E in H. lra.
Qed.

(** The bounce flag computed under ping-pong over a finite window. *)
Lemma _wrap_with_bounce_pingpong (tb : Timebase) (b t_before t_after : Q) :
  wrap_mode tb = pingpong ->
  t_max (window tb) = Fin b -> t_min (window tb) < b ->
  exists w bounced,
    _wrap_with_bounce tb t_before t_after = Ok (w, bounced)
    /\ _wrap tb t_after = Ok w
    /\ (bounced = true <->
        opposite_sides t_before t_after (t_min (window tb))
        \/ opposite_sides t_before t_after b
        \/ Qabs (w - t_min (window tb)) < eps
        \/ Qabs (w - b) < eps).
Proof.
  intros Hm Hb Hlt.
  pose proof (_wrap_pingpong tb t_after b Hm Hb Hlt) as Hw.
  assert (Hf : finite (window tb) = true) by (apply finite_spec; eauto).
  unfold _wrap_with_bounce. rewrite Hm, Hf, Hw. simpl.
  unfold upper. rewrite Hb.
  do 2 eexists. split; [reflexivity |]. split; [reflexivity |].
  rewrite !orb_true_iff, !Qltb_true, !opposite_sides_product. tauto.
Qed.





(** ** Instant cues *)

Lemma between_in_span (x u v : Q) : between x u v = true <-> in_span x u v.
Proof.
  unfold between, in_span.
  destruct (Qle_bool u v) eqn:E;
    [apply Qle_bool_iff in E | apply Qle_bool_false in E];
    rewrite andb_true_iff, !Qle_bool_iff; split_minmax; lra.
Qed.

Lemma between_sym (x u v : Q) : between x u v = between x v u.
Proof.
  apply eq_true_iff_eq. rewrite !between_in_span. unfold in_span.
  split_minmax; lra.
Qed.

Lemma Qeq_bool_sym (x y : Q) : Qeq_bool x y = Qeq_bool y x.
Proof.
  apply eq_true_iff_eq. rewrite !Qeq_bool_iff. split; intros H; lra.
Qed.

(** The loop of [_fire_cues] over the instant cues, guarded by
    [t_prev != t_now], makes the invocations [triggered] lists. *)
Lemma fire_instant_triggered (t_prev t_now : Q) (cues : list (Q * callback)) :
  (if negb (Qeq_bool t_prev t_now) then fire_instant t_prev t_now cues
   else []) = triggered t_prev t_now cues.
Proof.
  unfold triggered. destruct (negb (Qeq_bool t_prev t_now)); simpl.
  - induction cues as [| [tc fn] rest IH]; simpl; [reflexivity |].
    destruct (between tc t_prev t_now); simpl; rewrite IH; reflexivity.
  - induction cues as [| c rest IH]; simpl; auto.
Qed.

Lemma triggered_In (t_prev t_now tc : Q) (fn : callback)
  (cues : list (Q * callback)) :
  In (fn, tc) (triggered t_prev t_now cues) <->
  In (tc, fn) cues /\ ~ t_prev == t_now /\ in_span tc t_prev t_now.
Proof.
  unfold triggered. rewrite in_map_iff. split.
  - intros [[tc' fn'] [E H]]. simpl in E. injection E as -> ->.
    apply filter_In in H. destruct H as [H1 H2]. simpl in H2.
    apply andb_true_iff in H2. destruct H2 as [H2 H3].
    apply negb_true_iff, Qeq_bool_false in H2.
    apply between_in_span in H3. auto.
  - intros [H1 [H2 H3]]. exists (tc, fn). split; [reflexivity |].
    apply filter_In. split; [exact H1 |]. simpl.
    apply andb_true_iff. split.
    + apply negb_true_iff, Qeq_bool_false. exact H2.
    + apply between_in_span. exact H3.
Qed.

Lemma triggered_sym (t_prev t_now : Q) (cues : list (Q * callback)) :
  triggered t_prev t_now cues = triggered t_now t_prev cues.
Proof.
  unfold triggered. f_equal. apply filter_ext. intros c.
  rewrite (Qeq_bool_sym t_prev t_now), (between_sym (fst c) t_prev t_now).
  reflexivity.
Qed.

Lemma triggered_still (t_prev t_now : Q) (cues : list (Q * callback)) :
  t_prev == t_now -> triggered t_prev t_now cues = [].
Proof.
  intros H. apply Qeq_bool_iff in H. unfold triggered. rewrite H. simpl.
  induction cues as [| c rest IH]; simpl; auto.
Qed.

Lemma triggered_app (t_prev t_now : Q) (c1 c2 : list (Q * callback)) :
  triggered t_prev t_now (c1 ++ c2)
  = triggered t_prev t_now c1 ++ triggered t_prev t_now c2.
Proof. unfold triggered. rewrite filter_app, map_app. reflexivity. Qed.

(** C7, as stated, fails on a paused clock: after one [advance(0.5)]
    from 0 the cue at 0.25 has fired; once paused, the clock still holds
    [prev_time = 0], [time = 0.5] with 0.25 between them, and the next
    [advance] call invokes nothing. *)
Lemma paused_advance_fires_no_instant_cue :
  (exists tb', advance tb_quarter (1 # 2) = Ok (tb', [("cue"%string, 1 # 4)])
               /\ tb_quarter_paused = pause tb')
  /\ _instant_cues tb_quarter_paused = [(1 # 4, "cue"%string)]
  /\ ~ _prev_time tb_quarter_paused == _time tb_quarter_paused
  /\ in_span (1 # 4) (_prev_time tb_quarter_paused) (_time tb_quarter_paused)
  /\ advance tb_quarter_paused (1 # 2) = Ok (tb_quarter_paused, []).
Proof.
  split; [eexists; split; vm_compute; reflexivity |].
  split; [reflexivity |].
  split; [vm_compute; discriminate |].
  split; [| vm_compute; reflexivity].
  apply between_in_span. vm_compute. reflexivity.
Qed.

(** C7, amended.  On every [advance] call made while the clock is
    running, the invocations are those of the instant cues followed by
    those of the range cues, and an instant cue [(trigger_time, fn)] is
    invoked if and only if [prev_time != time] and [trigger_time] lies in
    the closed interval between [prev_time] and [time], where
    [prev_time] is the time before the call and [time] the time after
    it.  The test does not depend on the order of the two endpoints, the
    cues fire in registration order, and none fires when
    [prev_time == time].  A call made while paused invokes nothing. *)
Theorem instant_cues_fire_on_closed_segment (tb : Timebase) (dt : Q) :
  (running tb = true ->
     exists tb',
       advance tb dt =
         Ok (tb', triggered (_prev_time tb') (_time tb') (_instant_cues tb)
                  ++ snd (fire_range (_time tb') 0 (_range_cues tb)
                            (_range_state tb)))
       /\ _prev_time tb' = _time tb
       /\ _instant_cues tb' = _instant_cues tb)
  /\ (running tb = false -> advance tb dt = Ok (tb, []))
  /\ (forall t_prev t_now tc fn cues,
        In (fn, tc) (triggered t_prev t_now cues) <->
        In (tc, fn) cues /\ ~ t_prev == t_now /\ in_span tc t_prev t_now)
  /\ (forall t_prev t_now cues,
        triggered t_prev t_now cues = triggered t_now t_prev cues)
  /\ triggered (1 # 2) (3 # 2) [(1, "cue"%string)] = [("cue"%string, 1)]
  /\ triggered (3 # 2) (1 # 2) [(1, "cue"%string)] = [("cue"%string, 1)]
  /\ (forall t_prev t_now c1 c2,
        triggered t_prev t_now (c1 ++ c2)
        = triggered t_prev t_now c1 ++ triggered t_prev t_now c2)
  /\ (forall t_prev t_now cues,
        t_prev == t_now -> triggered t_prev t_now cues = []).
Proof.
  split.
  { intros Hr.
    destruct (advance_running_spec tb dt Hr)
      as [v [bn [tb' [l [_ [_ [Ha [Ht [Hp [_ [_ [_ [Hi [_ [_ Hl]]]]]]]]]]]]]]].
    exists tb'. rewrite Ha, Hl, Hp, Ht, fire_instant_triggered. auto. }
  split; [apply advance_paused |].
  split; [intros; apply triggered_In |].
  split; [intros; apply triggered_sym |].
  split; [reflexivity |]. split; [reflexivity |].
  split; [intros; apply triggered_app | intros; apply triggered_still; auto].
Qed.

Lemma instant_cues_fire_on_closed_segment_witness :
  exists tb',
    advance tb_demo_half (1 # 2) =
      Ok (tb', triggered (_prev_time tb') (_time tb')
                 (_instant_cues tb_demo_half)
               ++ snd (fire_range (_time tb') 0 (_range_cues tb_demo_half)
                         (_range_state tb_demo_half)))
    /\ _prev_time tb' = _time tb_demo_half
    /\ _instant_cues tb' = _instant_cues tb_demo_half.
Proof.
  destruct (instant_cues_fire_on_closed_segment tb_demo_half (1 # 2))
    as [H _].
  apply H. reflexivity.
Defined.

(** ** Range cues *)

Lemma range_key_eqb_refl (k : range_key) : range_key_eqb k k = true.
Proof.
  destruct k as [[t0 t1] i]. unfold range_key_eqb.
  rewrite Nat.eqb_refl, !andb_true_iff.
  repeat split; apply Qeq_bool_iff; reflexivity.
Qed.

Lemma state_get_set (st : list (range_key * bool)) (k : range_key) (v : bool) :
  state_get (state_set st k v) k = v.
Proof.
  induction st as [| [k0 v0] rest IH]; simpl.
  - rewrite range_key_eqb_refl. reflexivity.
  - destruct (range_key_eqb k0 k) eqn:E; simpl; rewrite E; auto.
Qed.

Lemma count_calls_app (fn : callback) (l1 l2 : list call) :
  count_calls fn (l1 ++ l2) = (count_calls fn l1 + count_calls fn l2)%nat.
Proof. unfold count_calls. rewrite filter_app, length_app. reflexivity. Qed.

(** Instant cues bound to other callbacks never invoke [fn]. *)
Lemma count_calls_triggered (fn : callback) (t_prev t_now : Q)
  (cues : list (Q * callback)) :
  Forall (fun c => snd c <> fn) cues ->
  count_calls fn (triggered t_prev t_now cues) = 0%nat.
Proof.
  unfold triggered, count_calls. intros H.
  induction H as [| c rest Hc _ IH]; simpl; [reflexivity |].
  destruct (negb (Qeq_bool t_prev t_now) && between (fst c) t_prev t_now);
    simpl; [| exact IH].
  apply String.eqb_neq in Hc. rewrite Hc. exact IH.
Qed.

Lemma last_default {A} (l : list A) (x d d' : A) :
  last (x :: l) d = last (x :: l) d'.
Proof.
  revert x. induction l as [| y l IH]; intros x; [reflexivity |].
  change (last (y :: l) d = last (y :: l) d'). apply IH.
Qed.

Section OneRange.

Variables enter exit : callback.
Hypothesis enter_not_exit : enter <> exit.

(** Whether a time lies in the range [[1, 2]] of the cue. *)
Let inside (t : Q) : bool := between t 1 2.

(** The clock holds the one range cue [(1, 2, enter, exit)], its flag
    tells whether the current time is inside the range, and no instant
    cue is bound to [enter] or [exit]. *)
Let tracked (tb : Timebase) : Prop :=
  _range_cues tb = [(1, 2, enter, exit)]
  /\ state_get (_range_state tb) (1, 2, 0%nat) = inside (_time tb)
  /\ Forall (fun c => snd c <> enter) (_instant_cues tb)
  /\ Forall (fun c => snd c <> exit) (_instant_cues tb).

Lemma count_enter_one (t : Q) : count_calls enter [(enter, t)] = 1%nat.
Proof. unfold count_calls; simpl. rewrite String.eqb_refl. reflexivity. Qed.

Lemma count_exit_one (t : Q) : count_calls exit [(exit, t)] = 1%nat.
Proof. unfold count_calls; simpl. rewrite String.eqb_refl. reflexivity. Qed.

Lemma count_enter_exit (t : Q) : count_calls enter [(exit, t)] = 0%nat.
Proof.
  unfold count_calls; simpl.
  assert (E : String.eqb exit enter = false)
    by (apply String.eqb_neq; congruence).
  rewrite E. reflexivity.
Qed.

Lemma count_exit_enter (t : Q) : count_calls exit [(enter, t)] = 0%nat.
Proof.
  unfold count_calls; simpl.
  assert (E : String.eqb enter exit = false)
    by (apply String.eqb_neq; congruence).
  rewrite E. reflexivity.
Qed.

(** One [advance] call: [enter] is invoked when the time moved into the
    range, [exit] when it moved out of it, and nothing otherwise. *)
Lemma advance_tracked (tb tb' : Timebase) (dt : Q) (l : list call) :
  tracked tb -> advance tb dt = Ok (tb', l) ->
  tracked tb'
  /\ count_calls enter l
     = (if negb (inside (_time tb)) && inside (_time tb') then 1 else 0)%nat
  /\ count_calls exit l
     = (if inside (_time tb) && negb (inside (_time tb')) then 1 else 0)%nat.
Proof.
  intros [Hc [Hs [He Hx]]] Ha.
  destruct (running tb) eqn:Hr.
  2:{ rewrite (advance_paused tb dt Hr) in Ha. injection Ha as <- <-.
      split; [unfold tracked; auto |].
      destruct (inside (_time tb)); split; reflexivity. }
  destruct (advance_running_spec tb dt Hr)
    as [v [bn [tb1 [l1 [_ [_ [Ha1 [Ht [_ [_ [_ [_ [Hi [Hrc [Hrs Hl]]]]]]]]]]]]]]].
  rewrite Ha in Ha1. injection Ha1 as <- <-.
  rewrite fire_instant_triggered in Hl.
  rewrite Hc in Hrs, Hl. simpl in Hrs, Hl. rewrite Hs in Hrs, Hl.
  fold (inside v) in Hrs, Hl. rewrite Ht.
  unfold tracked. rewrite Hrc, Hi, Hrs, Hl, Ht, !count_calls_app,
    !count_calls_triggered by assumption.
  destruct (inside v) eqn:Ev, (inside (_time tb)) eqn:Eo; simpl;
    rewrite ?state_get_set, ?count_enter_one, ?count_exit_one,
      ?count_enter_exit, ?count_exit_enter;
    repeat split; auto.
Qed.

(** A run of [advance] calls counts the entries into the range and the
    exits from it that its trajectory shows. *)
Lemma advances_tracked (dts : list Q) :
  forall tb, tracked tb ->
    advances tb dts = Ok (run tb dts)
    /\ tracked (fst (run tb dts))
    /\ _time (fst (run tb dts)) = last (trajectory tb dts) (_time tb)
    /\ count_calls enter (snd (run tb dts))
       = rises (inside (_time tb)) (map inside (trajectory tb dts))
    /\ count_calls exit (snd (run tb dts))
       = falls (inside (_time tb)) (map inside (trajectory tb dts)).
Proof.
  induction dts as [| dt rest IH]; intros tb Htr.
  - unfold run; simpl. split; [reflexivity |]. split; [exact Htr |].
    repeat split.
  - destruct (advance_total tb dt) as [tb1 [l1 H1]].
    destruct (advance_tracked tb tb1 dt l1 Htr H1) as [Htr1 [Hen Hex]].
    destruct (IH tb1 Htr1) as [Hrun [Htr2 [Hlast [Hen2 Hex2]]]].
    destruct (run tb1 rest) as [tb2 l2] eqn:Er. cbn [fst snd] in *.
    assert (Ea : advances tb (dt :: rest) = Ok (tb2, l1 ++ l2)).
    { cbn [advances]. rewrite H1. cbn [bindE]. rewrite Hrun. reflexivity. }
    assert (E : run tb (dt :: rest) = (tb2, l1 ++ l2))
      by (unfold run; rewrite Ea; reflexivity).
    assert (Et : trajectory tb (dt :: rest) = _time tb1 :: trajectory tb1 rest)
      by (cbn [trajectory]; rewrite H1; reflexivity).
    rewrite E, Et. cbn [fst snd map rises falls].
    rewrite !count_calls_app, Hen, Hex, Hen2, Hex2.
    split; [exact Ea |]. split; [exact Htr2 |].
    split; [| split; reflexivity].
    rewrite Hlast.
    destruct (trajectory tb1 rest) as [| q l]; [reflexivity |].
    change (last (_time tb1 :: q :: l) (_time tb))
      with (last (q :: l) (_time tb)).
    apply last_default.
Qed.

End OneRange.


(** *** Monotone trajectories through the range [[1, 2]] *)

Lemma inside_true (x : Q) : between x 1 2 = true <-> 1 <= x /\ x <= 2.
Proof.
  unfold between. cbn [Qle_bool]. change (Qle_bool 1 2) with true.
  cbv iota. rewrite andb_true_iff, !Qle_bool_iff. reflexivity.
Qed.

Lemma inside_false (x : Q) : between x 1 2 = false <-> x < 1 \/ 2 < x.
Proof.
  rewrite <- not_true_iff_false, inside_true. split.
  - intros H. destruct (Qlt_le_dec x 1) as [H1 | H1]; [auto |].
    destruct (Qlt_le_dec 2 x) as [H2 | H2]; [auto |].
    exfalso. apply H. split; assumption.
  - intros [H | H] [H1 H2]; lra.
Qed.

Lemma last_cons {A} (l : list A) (x d : A) : last (x :: l) d = last l x.
Proof.
  destruct l as [| y l]; [reflexivity |].
  change (last (y :: l) d = last (y :: l) x). apply last_default.
Qed.

Lemma nondecreasing_last (ts : list Q) :
  forall t, nondecreasing (t :: ts) -> t <= last ts t.
Proof.
  induction ts as [| u rest IH]; intros t H.
  - apply Qle_refl.
  - destruct H as [H1 H2]. rewrite last_cons.
    apply Qle_trans with u; [exact H1 | apply IH; exact H2].
Qed.

(** Case analysis on whether a time is inside the range. *)
Ltac case_inside t :=
  let E := fresh "E" in
  destruct (between t 1 2) eqn:E;
  [apply inside_true in E | apply inside_false in E].

(** Rising to a time not above 2: no exit, and one entry exactly when the
    run starts outside the range and ends inside it. *)
Lemma entering (ts : list Q) :
  forall t, nondecreasing (t :: ts) -> last ts t <= 2 ->
    falls (between t 1 2) (map (fun x => between x 1 2) ts) = 0%nat
    /\ rises (between t 1 2) (map (fun x => between x 1 2) ts)
       = (if negb (between t 1 2) && between (last ts t) 1 2
          then 1 else 0)%nat.
Proof.
  induction ts as [| u rest IH]; intros t Hnd Hl.
  - cbn [map rises falls last]. destruct (between t 1 2); auto.
  - destruct Hnd as [Htu Hnd]. rewrite last_cons in Hl |- *.
    destruct (IH u Hnd Hl) as [IHf IHr].
    pose proof (nondecreasing_last rest u Hnd) as Hul.
    cbn [map rises falls]. rewrite IHf, IHr.
    case_inside t; case_inside u; case_inside (last rest u);
      cbn [negb andb]; try (split; reflexivity); exfalso;
      repeat match goal with H : _ \/ _ |- _ => destruct H end; lra.
Qed.

(** Rising from a time not below 1: no entry, and one exit exactly when
    the run starts inside the range and ends outside it. *)
Lemma leaving (ts : list Q) :
  forall t, nondecreasing (t :: ts) -> 1 <= t ->
    rises (between t 1 2) (map (fun x => between x 1 2) ts) = 0%nat
    /\ falls (between t 1 2) (map (fun x => between x 1 2) ts)
       = (if between t 1 2 && negb (between (last ts t) 1 2)
          then 1 else 0)%nat.
Proof.
  induction ts as [| u rest IH]; intros t Hnd Hl.
  - cbn [map rises falls last]. destruct (between t 1 2); auto.
  - destruct Hnd as [Htu Hnd]. rewrite last_cons.
    assert (Hu : 1 <= u) by lra.
    destruct (IH u Hnd Hu) as [IHr IHf].
    pose proof (nondecreasing_last rest u Hnd) as Hul.
    cbn [map rises falls]. rewrite IHf, IHr.
    case_inside t; case_inside u; case_inside (last rest u);
      cbn [negb andb]; try (split; reflexivity); exfalso;
      repeat match goal with H : _ \/ _ |- _ => destruct H end; lra.
Qed.

(** Staying outside the range: neither. *)
Lemma staying_outside (ts : list Q) :
  forall t, between t 1 2 = false ->
    Forall (fun x => x < 1 \/ 2 < x) ts ->
    rises (between t 1 2) (map (fun x => between x 1 2) ts) = 0%nat
    /\ falls (between t 1 2) (map (fun x => between x 1 2) ts) = 0%nat.
Proof.
  induction ts as [| u rest IH]; intros t Ht Hall.
  - split; reflexivity.
  - inversion Hall as [| u' rest' Hu Hrest]; subst.
    apply inside_false in Hu.
    destruct (IH u Hu Hrest) as [IHr IHf].
    cbn [map rises falls]. rewrite IHr, IHf, Ht, Hu. split; reflexivity.
Qed.

(** C8, as stated, fails for a run that turns back: a ping-pong clock
    over [[0, 3]] driven by nine [advance(0.5)] calls passes through the
    range, bounces at 3 and comes back; it moves time from 0 to 1.5 and
    has invoked [enter] twice. *)
Lemma turning_run_enters_twice :
  exists tb' l,
    advances tb_bounce_back
      [1 # 2; 1 # 2; 1 # 2; 1 # 2; 1 # 2; 1 # 2; 1 # 2; 1 # 2; 1 # 2]
    = Ok (tb', l)
    /\ _time tb_bounce_back == 0
    /\ _time tb' == 3 # 2
    /\ count_calls "enter"%string l = 2%nat.
Proof.
  do 2 eexists. split; [vm_compute; reflexivity |].
  split; [reflexivity |]. split; reflexivity.
Qed.

(** C8, amended.  Register [on_range(1.0, 2.0, enter, exit)] on a clock
    at time 0 that holds no other range cue and no instant cue bound to
    [enter] or [exit].  A run of [advance] calls along which time never
    decreases and which ends at 1.5 invokes [enter] exactly once and
    [exit] never; a further such run ending at 2.5 invokes [exit] exactly
    once and [enter] never; further calls after which time is outside
    [[1, 2]] invoke neither.  Membership is read at the time each call
    ends with: a single call that carries time from 0 past 2 invokes
    neither.  The runs return normally. *)
Theorem range_cue_enter_exit_pairing (tb0 : Timebase)
  (enter exit : callback) (dts1 dts2 dts3 : list Q) :
  enter <> exit ->
  _range_cues tb0 = [] ->
  Forall (fun c => snd c <> enter) (_instant_cues tb0) ->
  Forall (fun c => snd c <> exit) (_instant_cues tb0) ->
  _time tb0 == 0 ->
  let tb := on_range tb0 1 2 enter exit in
  let r1 := run tb dts1 in
  let r2 := run (fst r1) dts2 in
  let r3 := run (fst r2) dts3 in
  nondecreasing (_time tb :: trajectory tb dts1) ->
  _time (fst r1) == 3 # 2 ->
  nondecreasing (_time (fst r1) :: trajectory (fst r1) dts2) ->
  _time (fst r2) == 5 # 2 ->
  Forall (fun t => t < 1 \/ 2 < t) (trajectory (fst r2) dts3) ->
  (advances tb dts1 = Ok r1
   /\ advances (fst r1) dts2 = Ok r2
   /\ advances (fst r2) dts3 = Ok r3)
  /\ (count_calls enter (snd r1) = 1 /\ count_calls exit (snd r1) = 0)%nat
  /\ (count_calls enter (snd r2) = 0 /\ count_calls exit (snd r2) = 1)%nat
  /\ (count_calls enter (snd r3) = 0 /\ count_calls exit (snd r3) = 0)%nat
  /\ (forall dt, 2 < _time (fst (run tb [dt])) ->
        (count_calls enter (snd (run tb [dt])) = 0
         /\ count_calls exit (snd (run tb [dt])) = 0)%nat).
Proof.
  intros Hne Hrc Hie Hix Ht0 tb r1 r2 r3 Hnd1 Hend1 Hnd2 Hend2 Hout.
  assert (Hin0 : between (_time tb) 1 2 = false).
  { apply inside_false. left. unfold tb, on_range; simpl. lra. }
  assert (Htr : _range_cues tb = [(1, 2, enter, exit)]
                /\ state_get (_range_state tb) (1, 2, 0%nat)
                   = between (_time tb) 1 2
                /\ Forall (fun c => snd c <> enter) (_instant_cues tb)
                /\ Forall (fun c => snd c <> exit) (_instant_cues tb)).
  { rewrite Hin0. unfold tb, on_range; simpl. rewrite Hrc. simpl.
    rewrite state_get_set. auto. }
  destruct (advances_tracked enter exit Hne dts1 tb Htr)
    as [Ha1 [Htr1 [Hl1 [Hen1 Hex1]]]].
  fold r1 in Ha1, Htr1, Hl1, Hen1, Hex1.
  destruct (advances_tracked enter exit Hne dts2 (fst r1) Htr1)
    as [Ha2 [Htr2 [Hl2 [Hen2 Hex2]]]].
  fold r2 in Ha2, Htr2, Hl2, Hen2, Hex2.
  destruct (advances_tracked enter exit Hne dts3 (fst r2) Htr2)
    as [Ha3 [_ [_ [Hen3 Hex3]]]].
  fold r3 in Ha3, Hen3, Hex3.
  assert (Hin1 : between (_time (fst r1)) 1 2 = true)
    by (apply inside_true; lra).
  assert (Hin2 : between (_time (fst r2)) 1 2 = false)
    by (apply inside_false; right; lra).
  split; [auto |].
  split.
  { destruct (entering (trajectory tb dts1) (_time tb) Hnd1) as [Hf Hr].
    - rewrite <- Hl1. lra.
    - rewrite Hen1, Hex1, Hf, Hr, <- Hl1, Hin0, Hin1. split; reflexivity. }
  split.
  { destruct (leaving (trajectory (fst r1) dts2) (_time (fst r1)) Hnd2)
      as [Hr Hf]; [lra |].
    rewrite Hen2, Hex2, Hf, Hr, <- Hl2, Hin1, Hin2. split; reflexivity. }
  split.
  { destruct (staying_outside (trajectory (fst r2) dts3) (_time (fst r2))
                Hin2 Hout) as [Hr Hf].
    rewrite Hen3, Hex3, Hf, Hr. split; reflexivity. }
  intros dt Hdt.
  destruct (advances_tracked enter exit Hne [dt] tb Htr)
    as [_ [_ [Hl [Hen Hex]]]].
  assert (Hin : between (_time (fst (run tb [dt]))) 1 2 = false)
    by (apply inside_false; right; exact Hdt).
  destruct (staying_outside (trajectory tb [dt]) (_time tb) Hin0)
    as [Hr Hf].
  - destruct (trajectory tb [dt]) as [| u rest] eqn:Etr; [constructor |].
    assert (Hrest : rest = []).
    { cbn [trajectory] in Etr. destruct (advance tb dt) as [[tb' l'] | e];
        [injection Etr as _ <-; reflexivity | discriminate]. }
    subst rest. cbn [last] in Hl. constructor; [| constructor].
    rewrite <- Hl. right. exact Hdt.
  - rewrite Hen, Hex, Hr, Hf. split; reflexivity.
Qed.

Lemma range_cue_enter_exit_pairing_witness :
  let tb := on_range tb_fast 1 2 "enter"%string "exit"%string in
  let r1 := run tb [1 # 4; 1 # 2] in
  let r2 := run (fst r1) [1 # 4; 1 # 4] in
  let r3 := run (fst r2) [1 # 2; 1 # 2] in
  ((advances tb [1 # 4; 1 # 2] = Ok r1
    /\ advances (fst r1) [1 # 4; 1 # 4] = Ok r2
    /\ advances (fst r2) [1 # 2; 1 # 2] = Ok r3)
   /\ (count_calls "enter"%string (snd r1) = 1
       /\ count_calls "exit"%string (snd r1) = 0)%nat
   /\ (count_calls "enter"%string (snd r2) = 0
       /\ count_calls "exit"%string (snd r2) = 1)%nat
   /\ (count_calls "enter"%string (snd r3) = 0
       /\ count_calls "exit"%string (snd r3) = 0)%nat
   /\ (forall dt, 2 < _time (fst (run tb [dt])) ->
         (count_calls "enter"%string (snd (run tb [dt])) = 0
          /\ count_calls "exit"%string (snd (run tb [dt])) = 0)%nat))
  /\ (_time (fst (run tb [2])) == 4
      /\ 2 < _time (fst (run tb [2]))
      /\ snd (run tb [2]) = []).
Proof.
  split.
  - apply (range_cue_enter_exit_pairing tb_fast "enter"%string "exit"%string
             [1 # 4; 1 # 2] [1 # 4; 1 # 4] [1 # 2; 1 # 2]).
    + discriminate.
    + reflexivity.
    + constructor.
    + constructor.
    + reflexivity.
    + vm_compute. intuition discriminate.
    + vm_compute. reflexivity.
    + vm_compute. intuition discriminate.
    + vm_compute. reflexivity.
    + match goal with
      | |- Forall _ ?l => let l' := eval vm_compute in l in change l with l'
      end.
      repeat (apply Forall_cons; [right; reflexivity |]). apply Forall_nil.
  - split; [vm_compute; reflexivity |].
    split; vm_compute; reflexivity.
Defined.


(** ** The end-to-end scenario *)

(** C2, as stated, fails: with the default [clamp_dt = 1/30] the first
    [advance(0.5)] moves time from 0 to 1/30, not to 0.5, and the three
    calls together never invoke the cue. *)
Lemma capped_scenario_misses_the_cue :
  (exists tb1, advance tb_demo (1 # 2) = Ok (tb1, [])
               /\ _time tb1 == 1 # 30 /\ ~ _time tb1 == 1 # 2)
  /\ exists tb3 l,
       advances tb_demo [1 # 2; 1 # 2; 1 # 2] = Ok (tb3, l)
       /\ ~ _time tb3 == 3 # 2
       /\ count_calls "cue"%string l = 0%nat.
Proof.
  split.
  - eexists. split; [vm_compute; reflexivity |].
    split; [reflexivity | vm_compute; discriminate].
  - do 2 eexists. split; [vm_compute; reflexivity |].
    split; [vm_compute; discriminate | reflexivity].
Qed.

(** C2, amended.  With the default [clamp_dt] each [advance(0.5)] call
    consumes 1/30: the three calls move time through
    0 -> 1/30 -> 1/15 -> 1/10 and the cue at 1.0 is never invoked.  On
    the same clock constructed with [clamp_dt = 0.5] the three calls move
    time through 0 -> 0.5 -> 1.0 -> 1.5 and the cue is invoked twice: by
    the call whose segment runs from 0.5 to 1.0 and by the call whose
    segment runs from 1.0 to 1.5. *)
Theorem end_to_end_scenario :
  observe tb_demo [1 # 2; 1 # 2; 1 # 2]
    = [(1 # 30, []); (1 # 15, []); (1 # 10, [])]
  /\ observe tb_demo_half [1 # 2; 1 # 2; 1 # 2]
     = [(1 # 2, []); (1, [("cue"%string, 1)]); (3 # 2, [("cue"%string, 1)])].
Proof. split; vm_compute; reflexivity. Qed.


(** ** The shape of the ping-pong and clamp policies *)

Section Triangle.

Variables a b : Q.
Hypothesis a_lt_b : a < b.

(** The value of [_wrap] under ping-pong over [[a, b]]. *)
Let pp (t : Q) : Q := a + tri (fmod (t - a) (2 * (b - a))) (b - a).

Lemma pp_shift (t : Q) (k : Z) :
  pp (t + 2 * (b - a) * inject_Z k) == pp t.
Proof.
  unfold pp. apply Qplus_inj_l. apply tri_Proper_l.
  rewrite <- (fmod_shift (t - a) (2 * (b - a)) k) by lra.
  apply fmod_Proper; [ring | reflexivity].
Qed.

Lemma pp_range (t : Q) : a <= pp t /\ pp t <= b.
Proof.
  unfold pp.
  destruct (fmod_bounds (t - a) (2 * (b - a))) as [H0 H1]; [lra |].
  destruct (tri_bounds _ (b - a) H0 H1). lra.
Qed.

Lemma pp_rising (t : Q) : a <= t -> t <= b -> pp t == t.
Proof.
  intros H0 H1. unfold pp.
  rewrite (tri_Proper_l _ (t - a)) by (apply fmod_small; lra).
  unfold tri. destruct (Qle_bool (t - a) (b - a)) eqn:E.
  - ring.
  - apply Qle_bool_false in E. lra.
Qed.

Lemma pp_reflect (t : Q) : pp (2 * b - t) == pp t.
Proof.
  unfold pp. apply Qplus_inj_l.
  set (len := b - a). assert (Hlen : 0 < len) by (unfold len; lra).
  pose proof (fmod_decomp (t - a) (2 * len)) as Hd.
  destruct (fmod_bounds (t - a) (2 * len)) as [H0 H1]; [lra |].
  set (m := fmod (t - a) (2 * len)) in *.
  set (k := Qfloor ((t - a) / (2 * len))) in *.
  destruct (Qeq_dec m 0) as [Hm | Hm].
  - assert (E : fmod (2 * b - t - a) (2 * len) == 0).
    { transitivity (fmod (0 + 2 * len * inject_Z (1 - k)) (2 * len)).
      - apply fmod_Proper; [| reflexivity].
        unfold Z.sub. rewrite inject_Z_plus, inject_Z_opp.
        change (inject_Z 1) with 1. unfold len in *. lra.
      - rewrite fmod_shift by lra. apply fmod_small; lra. }
    rewrite (tri_Proper_l _ 0 len E), (tri_Proper_l m 0 len Hm).
    reflexivity.
  - assert (E : fmod (2 * b - t - a) (2 * len) == 2 * len - m).
    { transitivity (fmod (2 * len - m + 2 * len * inject_Z (- k)) (2 * len)).
      - apply fmod_Proper; [| reflexivity].
        rewrite inject_Z_opp. unfold len in *. lra.
      - rewrite fmod_shift by lra. apply fmod_small; lra. }
    rewrite (tri_Proper_l _ _ len E). unfold tri.
    destruct (Qle_bool (2 * len - m) len) eqn:E1,
             (Qle_bool m len) eqn:E2;
      try apply Qle_bool_iff in E1; try apply Qle_bool_iff in E2;
      try apply Qle_bool_false in E1; try apply Qle_bool_false in E2; lra.
Qed.

Lemma pp_falling (t : Q) : b <= t -> t <= b + (b - a) -> pp t == 2 * b - t.
Proof.
  intros H0 H1. rewrite <- pp_reflect. apply pp_rising; lra.
Qed.

(** The fold never moves a time away from a point of the window. *)
Lemma pp_near (o p : Q) :
  a <= o -> o <= b -> Qabs (pp p - o) <= Qabs (p - o).
Proof.
  intros Ho1 Ho2. unfold pp.
  set (len := b - a). assert (Hlen : 0 < len) by (unfold len; lra).
  pose proof (fmod_decomp (p - a) (2 * len)) as Hd.
  destruct (fmod_bounds (p - a) (2 * len)) as [H0 H1]; [lra |].
  set (m := fmod (p - a) (2 * len)) in *.
  set (k := Qfloor ((p - a) / (2 * len))) in *.
  assert (Hk : (k <= -1 \/ k = 0 \/ 1 <= k)%Z) by lia.
  assert (HK : len * inject_Z k <= - len \/ len * inject_Z k == 0
               \/ len <= len * inject_Z k).
  { destruct Hk as [Hk | [Hk | Hk]].
    - left. rewrite Zle_Qle in Hk. change (inject_Z (-1)) with (-1) in Hk.
      assert (0 <= len * (-1 - inject_Z k))
        by (apply Qmult_le_0_compat; lra). lra.
    - right; left. rewrite Hk. change (inject_Z 0) with 0. ring.
    - right; right. rewrite Zle_Qle in Hk. change (inject_Z 1) with 1 in Hk.
      assert (0 <= len * (inject_Z k - 1))
        by (apply Qmult_le_0_compat; lra). lra. }
  clearbody m k. set (K := len * inject_Z k) in *.
  assert (Hd' : p - a == m + 2 * K) by (unfold K; lra).
  clearbody K. clear Hd Hk. unfold len in *. unfold tri.
  destruct (Qle_bool m (b - a)) eqn:E;
    [apply Qle_bool_iff in E | apply Qle_bool_false in E];
    split_abs; destruct HK as [HK | [HK | HK]]; lra.
Qed.

(** The fold is non-expansive: a continuous triangle wave. *)
Lemma pp_lipschitz (s t : Q) : Qabs (pp s - pp t) <= Qabs (s - t).
Proof.
  set (len := b - a). assert (Hlen : 0 < len) by (unfold len; lra).
  pose proof (fmod_decomp (t - a) (2 * len)) as Hd.
  destruct (fmod_bounds (t - a) (2 * len)) as [H0 H1]; [lra |].
  set (k := Qfloor ((t - a) / (2 * len))) in *.
  pose proof (pp_shift s (- k)) as Hs. pose proof (pp_shift t (- k)) as Ht.
  rewrite inject_Z_opp in Hs, Ht. fold len in Hs, Ht.
  set (K := 2 * len * inject_Z k) in *.
  assert (Hd' : t - a == fmod (t - a) (2 * len) + K) by exact Hd.
  set (m := fmod (t - a) (2 * len)) in *.
  set (s' := s + 2 * len * - inject_Z k) in *.
  set (t' := t + 2 * len * - inject_Z k) in *.
  assert (Es : s' == s - K) by (unfold s', K; ring).
  assert (Et : t' == t - K) by (unfold t', K; ring).
  rewrite <- Hs, <- Ht.
  destruct (Qlt_le_dec (b - a) m) as [Hm | Hm].
  - assert (Hf : pp t' == 2 * b - t')
      by (apply pp_falling; unfold len in *; lra).
    rewrite <- (pp_reflect s'). rewrite Hf.
    assert (Hn := pp_near (2 * b - t') (2 * b - s')).
    assert (E : Qabs (2 * b - s' - (2 * b - t')) == Qabs (s - t)).
    { rewrite <- (Qabs_opp (s - t)). apply Qabs_wd. lra. }
    rewrite <- E. apply Hn; unfold len in *; lra.
  - assert (Hf : pp t' == t')
      by (apply pp_rising; unfold len in *; lra).
    rewrite Hf.
    assert (Hn := pp_near t' s').
    assert (E : Qabs (s' - t') == Qabs (s - t)) by (apply Qabs_wd; lra).
    rewrite <- E. apply Hn; unfold len in *; lra.
Qed.

Lemma pp_period (t : Q) : pp (t + 2 * (b - a)) == pp t.
Proof.
  rewrite <- (pp_shift t 1). unfold pp. apply Qplus_inj_l.
  apply tri_Proper_l. apply fmod_Proper; [| reflexivity].
  change (inject_Z 1) with 1. ring.
Qed.

End Triangle.

(** Clamping never moves a time away from a point of the window. *)
Lemma clamp_near (w : TimeWindow) (o p : Q) :
  contained w o ->
  Qabs (Qmax (t_min w) (min_x p (t_max w)) - o) <= Qabs (p - o).
Proof.
  unfold contained. intros [H1 H2].
  destruct (t_max w) as [b |]; cbn [min_x le_x] in *;
    split_minmax; split_abs; lra.
Qed.


(** C9, amended.  In exact arithmetic: under ping-pong over a finite
    window [[a, b]] of positive length, [wrap] is periodic with period [2 * (b - a)]; it is the
    identity on [[a, b]] and the reflection [t |-> 2 * b - t] on
    [[b, b + (b - a)]], the two pieces agreeing at the fold points; and it
    is non-expansive, [|wrap(s) - wrap(t)| <= |s - t|], hence continuous
    everywhere, with no jump at [t = a] or [t = a + (b - a)]. *)
Theorem pingpong_wrap_is_triangle_wave (tb : Timebase) (b : Q) :
  wrap_mode tb = pingpong ->
  t_max (window tb) = Fin b ->
  t_min (window tb) < b ->
  (forall t, exists v w,
      _wrap tb (t + 2 * (b - t_min (window tb))) = Ok v
      /\ _wrap tb t = Ok w /\ v == w)
  /\ (forall t, t_min (window tb) <= t -> t <= b ->
        exists v, _wrap tb t = Ok v /\ v == t)
  /\ (forall t, b <= t -> t <= b + (b - t_min (window tb)) ->
        exists v, _wrap tb t = Ok v /\ v == 2 * b - t)
  /\ (forall s t, exists v w,
        _wrap tb s = Ok v /\ _wrap tb t = Ok w
        /\ Qabs (v - w) <= Qabs (s - t))
  /\ (forall t e, 0 < e ->
        exists d, 0 < d /\ forall s, Qabs (s - t) < d ->
          exists v w, _wrap tb s = Ok v /\ _wrap tb t = Ok w
                      /\ Qabs (v - w) < e).
Proof.
  intros Hm Hb Hlt.
  pose proof (fun t => _wrap_pingpong tb t b Hm Hb Hlt) as Hw.
  split; [| split; [| split; [| split]]].
  - intros t. do 2 eexists. split; [apply Hw |]. split; [apply Hw |].
    apply pp_period. exact Hlt.
  - intros t H0 H1. eexists. split; [apply Hw |].
    apply pp_rising; assumption.
  - intros t H0 H1. eexists. split; [apply Hw |].
    apply pp_falling; assumption.
  - intros s t. do 2 eexists. split; [apply Hw |]. split; [apply Hw |].
    apply pp_lipschitz. exact Hlt.
  - intros t e He. exists e. split; [exact He |]. intros s Hs.
    do 2 eexists. split; [apply Hw |]. split; [apply Hw |].
    eapply Qle_lt_trans; [apply pp_lipschitz; exact Hlt | exact Hs].
Qed.

Lemma pingpong_wrap_is_triangle_wave_witness :
  (forall t, exists v w,
      _wrap tb_demo (t + 2 * (2 - t_min (window tb_demo))) = Ok v
      /\ _wrap tb_demo t = Ok w /\ v == w)
  /\ (forall s t, exists v w,
        _wrap tb_demo s = Ok v /\ _wrap tb_demo t = Ok w
        /\ Qabs (v - w) <= Qabs (s - t)).
Proof.
  assert (Hlt : t_min (window tb_demo) < 2) by (simpl; lra).
  destruct (pingpong_wrap_is_triangle_wave tb_demo 2 eq_refl eq_refl Hlt)
    as [H1 [_ [_ [H2 _]]]].
  split; assumption.
Defined.

(** ** What rounding changes *)

Module Float64Facts.

Import PrimFloat.
Local Open Scope float_scope.
Set Warnings "-inexact-float".

(** C9, as stated, fails on doubles.  Ping-pong over [[-3.0, -2.9]],
    where [length] is 0.10000000000000009 and [t = 4.875] and
    [t + 2 * length] are both doubles: [wrap] returns two different
    values, not one.  And at the fold point [t = t_max] of the window
    [[-3.0, -0.9]] the result is not [t_max] but the double above it. *)
Lemma pingpong_wrap_is_not_periodic_on_doubles :
  (let a := (-3) in
   let b := (-2.9) in
   let length := b - a in
   let t := 4.875 in
   Float64._wrap pingpong a b t = Ok (-2.9250000000000069)
   /\ Float64._wrap pingpong a b (t + 2 * length) = Ok (-2.9250000000000078)
   /\ (-2.9250000000000069 =? -2.9250000000000078) = false)
  /\ (Float64._wrap pingpong (-3) (-0.9) (-0.9) = Ok (-0.89999999999999991)
      /\ (-0.9 <? -0.89999999999999991) = true).
Proof. repeat split; vm_compute; reflexivity. Qed.

(** On doubles the ping-pong fold can leave the window: over
    [[-2.0, -0.9]], [wrap(-0.9)] is the double above [t_max]. *)
Lemma pingpong_wrap_leaves_the_window_on_doubles :
  Float64._wrap pingpong (-2) (-0.9) (-0.9) = Ok (-0.89999999999999991)
  /\ (-0.9 <? -0.89999999999999991) = true.
Proof. split; vm_compute; reflexivity. Qed.

(** On doubles the step bound is missed: a loop clock over
    [[-2.9, 1.9]] at the double below [t_max] with rate 0 proposes its own
    time and wraps to [t_min]; a clamp clock at 1.385 with rate 1 and
    [clamp_dt = 1/30] moves by more than 1/30. *)
Lemma step_bound_is_missed_on_doubles :
  (let old := 1.8999999999999997 in
   Float64.proposed old 0 1 (1 / 30) = old
   /\ (old <? 1.9) = true
   /\ Float64._wrap loop (-2.9) 1.9 (Float64.proposed old 0 1 (1 / 30))
      = Ok (-2.9))
  /\ (let old := 1.385 in
      exists new,
        Float64._wrap clamp 0 infinity (Float64.proposed old 1 1 (1 / 30))
        = Ok new
        /\ (1 / 30 <? new - old) = true).
Proof.
  split.
  - repeat split; vm_compute; reflexivity.
  - eexists. split; vm_compute; reflexivity.
Qed.

(** On doubles a loop can return [t_max], and seeking twice can differ
    from seeking once: over [[0, 2]], [wrap(-1e-20)] is 2.0; over
    [[0.3, 0.7]], [wrap(-0.1)] is 0.7 and [wrap(0.7)] is 0.3. *)
Lemma loop_wrap_reaches_t_max_on_doubles :
  Float64._wrap loop 0 2 (-1e-20) = Ok 2
  /\ Float64._wrap loop 0.3 0.7 (-0.1) = Ok 0.7
  /\ Float64._wrap loop 0.3 0.7 0.7 = Ok 0.3.
Proof. repeat split; vm_compute; reflexivity. Qed.

End Float64Facts.


(** ** The per-call step bound *)

Lemma step_dt_capped (tb : Timebase) :
  clamp_dt tb == 1 # 30 -> step_dt tb 1 == 1 # 30.
Proof.
  intros H. unfold step_dt. destruct (Qle_bool 1 (clamp_dt tb)) eqn:E.
  - apply Qle_bool_iff in E. lra.
  - exact H.
Qed.

Lemma eff_rate_magnitude (tb : Timebase) :
  unit_dir tb -> Qabs (eff_rate tb) == Qabs (rate tb).
Proof.
  intros Hd. unfold eff_rate. rewrite Qabs_Qmult.
  assert (E : Qabs (if WrapMode_eqb (wrap_mode tb) pingpong
                    then _dir_sign tb else 1) == 1).
  { destruct (WrapMode_eqb (wrap_mode tb) pingpong); [| reflexivity].
    destruct Hd as [Hd | Hd]; rewrite Hd; reflexivity. }
  rewrite E. ring.
Qed.

(** C4, as stated, fails: a loop clock over [[0, 2]] at 59/30 wraps
    around to 0 on [advance(1.0)], a change of 59/30; and a clamp clock
    constructed outside its window, at 5 over [[0, 2]], is pulled to 2, a
    change of 3.  Both have [clamp_dt = 1/30] and rate 1. *)
Lemma step_bound_broken_by_wraparound :
  (clamp_dt tb_loop_edge == 1 # 30 /\ in_window tb_loop_edge
   /\ exists tb' l,
        advance tb_loop_edge 1 = Ok (tb', l)
        /\ _time tb' == 0
        /\ ~ Qabs (_time tb' - _time tb_loop_edge)
             <= Qabs (rate tb_loop_edge) * (1 # 30))
  /\ (clamp_dt tb_outside == 1 # 30
      /\ exists tb' l,
           advance tb_outside 1 = Ok (tb', l)
           /\ _time tb' == 2
           /\ ~ Qabs (_time tb' - _time tb_outside)
                <= Qabs (rate tb_outside) * (1 # 30)).
Proof.
  split.
  - split; [reflexivity |]. split.
    + unfold in_window, contained; simpl. lra.
    + do 2 eexists. split; [vm_compute; reflexivity |].
      split; [reflexivity | vm_compute; intros H; apply H; reflexivity].
  - split; [reflexivity |].
    do 2 eexists. split; [vm_compute; reflexivity |].
    split; [reflexivity | vm_compute; intros H; apply H; reflexivity].
Qed.

(** C4, amended.  In exact arithmetic: for every clock with
    [clamp_dt = 1/30] whose time lies
    inside its window and whose [dir_sign] is [+1] or [-1], in any
    running state and at any rate, one [advance] call with
    [dt_real = 1.0] changes time by at most [|rate| * (1/30)] under clamp,
    under ping-pong, and over a window that is not finite; under loop
    over a finite window the bound holds for the calls whose unwrapped
    proposed time stays within [[t_min, t_max)]. *)
Theorem capped_step_bound (tb : Timebase) :
  clamp_dt tb == 1 # 30 ->
  in_window tb ->
  unit_dir tb ->
  (wrap_mode tb = loop -> forall b,
     t_max (window tb) = Fin b -> t_min (window tb) < b ->
     t_min (window tb) <= proposed tb 1 /\ proposed tb 1 < b) ->
  exists tb' l,
    advance tb 1 = Ok (tb', l)
    /\ Qabs (_time tb' - _time tb) <= Qabs (rate tb) * (1 # 30).
Proof.
  intros Hc Hin Hd Hloop.
  destruct (running tb) eqn:Hr.
  2:{ exists tb, []. split; [apply advance_paused; exact Hr |].
      assert (E : _time tb - _time tb == 0) by ring.
      rewrite E. change (Qabs 0) with 0.
      apply Qmult_le_0_compat; [apply Qabs_nonneg | lra]. }
  destruct (advance_running_spec tb 1 Hr)
    as [v [bn [tb' [l [_ [Hw [Ha [Ht _]]]]]]]].
  exists tb', l. split; [exact Ha |]. rewrite Ht.
  assert (Hp : Qabs (proposed tb 1 - _time tb) == Qabs (rate tb) * (1 # 30)).
  { unfold proposed.
    assert (E : _time tb + eff_rate tb * step_dt tb 1 - _time tb
                == eff_rate tb * (1 # 30))
      by (rewrite (step_dt_capped tb Hc); ring).
    rewrite E, Qabs_Qmult, (eff_rate_magnitude tb Hd). reflexivity. }
  rewrite <- Hp. clear Hp.
  destruct Hin as [Hin1 Hin2].
  destruct (finite (window tb)) eqn:Hf.
  - apply finite_spec in Hf. destruct Hf as [b [Hb Hlt]].
    rewrite Hb in Hin2. simpl in Hin2.
    destruct (wrap_mode tb) eqn:Hm.
    + rewrite _wrap_fallback in Hw by auto. injection Hw as <-.
      apply clamp_near. split; [exact Hin1 | rewrite Hb; exact Hin2].
    + rewrite (_wrap_loop tb _ b Hm Hb Hlt) in Hw. injection Hw as <-.
      destruct (Hloop eq_refl b Hb Hlt) as [H1 H2].
      assert (E : t_min (window tb)
                  + fmod (proposed tb 1 - t_min (window tb))
                      (b - t_min (window tb))
                  - _time tb == proposed tb 1 - _time tb).
      { rewrite fmod_small by lra. ring. }
      rewrite E. apply Qle_refl.
    + rewrite (_wrap_pingpong tb _ b Hm Hb Hlt) in Hw. injection Hw as <-.
      apply pp_near; assumption.
  - rewrite _wrap_fallback in Hw by auto. injection Hw as <-.
    apply clamp_near. split; assumption.
Qed.

Lemma capped_step_bound_witness :
  exists tb' l,
    advance tb_pingpong_edge 1 = Ok (tb', l)
    /\ Qabs (_time tb' - _time tb_pingpong_edge)
       <= Qabs (rate tb_pingpong_edge) * (1 # 30).
Proof.
  apply (capped_step_bound tb_pingpong_edge).
  - reflexivity.
  - unfold in_window, contained; simpl. lra.
  - left. reflexivity.
  - intros H. discriminate H.
Defined.


(** * Further properties of the clock *)

(** ** More on the boundary policy *)

Lemma _wrap_ext (tb tb' : Timebase) (t : Q) :
  window tb = window tb' -> wrap_mode tb = wrap_mode tb' ->
  _wrap tb t = _wrap tb' t.
Proof. intros Hw Hm. unfold _wrap. rewrite Hw, Hm. reflexivity. Qed.

Lemma _wrap_with_bounce_ext (tb tb' : Timebase) (t_before t_after : Q) :
  window tb = window tb' -> wrap_mode tb = wrap_mode tb' ->
  _wrap_with_bounce tb t_before t_after
  = _wrap_with_bounce tb' t_before t_after.
Proof.
  intros Hw Hm. unfold _wrap_with_bounce.
  rewrite (_wrap_ext tb tb' t_after Hw Hm), Hw, Hm. reflexivity.
Qed.

(** X1.  In exact arithmetic: under loop over a finite window [[a, b]]
    of positive length, [wrap] has period [b - a], its values lie in the half-open interval
    [[a, b)], it is the identity there, and it sends [t_max] itself to
    [t_min]. *)
Theorem loop_wrap_is_periodic_and_half_open (tb : Timebase) (b : Q) :
  wrap_mode tb = loop ->
  t_max (window tb) = Fin b ->
  t_min (window tb) < b ->
  (forall t, exists v w,
      _wrap tb (t + (b - t_min (window tb))) = Ok v
      /\ _wrap tb t = Ok w /\ v == w)
  /\ (forall t, exists v,
        _wrap tb t = Ok v /\ t_min (window tb) <= v /\ v < b)
  /\ (forall t, t_min (window tb) <= t -> t < b ->
        exists v, _wrap tb t = Ok v /\ v == t)
  /\ (exists v, _wrap tb b = Ok v /\ v == t_min (window tb)).
Proof.
  intros Hm Hb Hlt.
  pose proof (fun t => _wrap_loop tb t b Hm Hb Hlt) as Hw.
  set (a := t_min (window tb)) in *.
  split; [| split; [| split]].
  - intros t. do 2 eexists. split; [apply Hw |]. split; [apply Hw |].
    apply Qplus_inj_l.
    rewrite <- (fmod_shift (t - a) (b - a) 1) by lra.
    apply fmod_Proper; [| reflexivity]. change (inject_Z 1) with 1. ring.
  - intros t. eexists. split; [apply Hw |].
    destruct (fmod_bounds (t - a) (b - a)); lra.
  - intros t H0 H1. eexists. split; [apply Hw |].
    rewrite fmod_small by lra. ring.
  - eexists. split; [apply Hw |].
    assert (E : fmod (b - a) (b - a) == 0).
    { transitivity (fmod (0 + (b - a) * inject_Z 1) (b - a)).
      - apply fmod_Proper; [| reflexivity]. change (inject_Z 1) with 1. ring.
      - rewrite fmod_shift by lra. apply fmod_small; lra. }
    rewrite E. ring.
Qed.

Lemma loop_wrap_is_periodic_and_half_open_witness :
  (forall t, exists v,
      _wrap tb_loop_edge t = Ok v
      /\ t_min (window tb_loop_edge) <= v /\ v < 2)
  /\ (exists v, _wrap tb_loop_edge 2 = Ok v
                /\ v == t_min (window tb_loop_edge)).
Proof.
  assert (Hlt : t_min (window tb_loop_edge) < 2) by (simpl; lra).
  destruct (loop_wrap_is_periodic_and_half_open tb_loop_edge 2
              eq_refl eq_refl Hlt) as [_ [H1 [_ H2]]].
  split; assumption.
Defined.

(** Wrapping a wrapped time changes nothing, whatever the mode and the
    window. *)
Lemma _wrap_idempotent (tb : Timebase) (t v : Q) :
  _wrap tb t = Ok v -> exists v', _wrap tb v = Ok v' /\ v' == v.
Proof.
  intros Hv.
  destruct (finite (window tb)) eqn:Hf.
  - apply finite_spec in Hf. destruct Hf as [b [Hb Hlt]].
    destruct (wrap_mode tb) eqn:Hm.
    + rewrite _wrap_fallback in Hv by auto. injection Hv as <-.
      eexists. split; [apply _wrap_fallback; auto |].
      rewrite Hb. cbn [min_x]. split_minmax; lra.
    + rewrite (_wrap_loop tb t b Hm Hb Hlt) in Hv. injection Hv as <-.
      eexists. split; [apply (_wrap_loop tb _ b Hm Hb Hlt) |].
      destruct (fmod_bounds (t - t_min (window tb)) (b - t_min (window tb)));
        [lra |].
      rewrite (fmod_small (_ - _)) by lra. ring.
    + rewrite (_wrap_pingpong tb t b Hm Hb Hlt) in Hv. injection Hv as <-.
      eexists. split; [apply (_wrap_pingpong tb _ b Hm Hb Hlt) |].
      destruct (pp_range (t_min (window tb)) b Hlt t).
      apply pp_rising; assumption.
  - rewrite _wrap_fallback in Hv by auto. injection Hv as <-.
    eexists. split; [apply _wrap_fallback; auto |].
    destruct (t_max (window tb)) as [b |]; cbn [min_x];
      split_minmax; lra.
Qed.

(** X2.  In exact arithmetic, seeking is idempotent under every mode and
    window: after
    [seek(t)], a [seek] to the time the clock now reads returns normally,
    invokes nothing and leaves that time as it is.  So do [set_wrap] with
    the mode already in force and [set_window] with the window already in
    force. *)
Theorem seek_is_idempotent (tb : Timebase) (t : Q) :
  exists tb1,
    seek tb t = Ok (tb1, [])
    /\ (exists tb2, seek tb1 (_time tb1) = Ok (tb2, [])
                    /\ _time tb2 == _time tb1)
    /\ (exists tb2, set_wrap tb1 (wrap_mode tb1) = Ok (tb2, [])
                    /\ _time tb2 == _time tb1)
    /\ (exists tb2,
          set_window tb1 (t_min (window tb1)) (t_max (window tb1))
            = Ok (tb2, [])
          /\ _time tb2 == _time tb1).
Proof.
  destruct (_wrap_total tb t) as [v Hv].
  destruct (_wrap_idempotent tb t v Hv) as [v' [Hv' Hvv]].
  eexists. split; [apply seek_eq; exact Hv |].
  cbn [_time set_prev_time set_time].
  split; [| split].
  - exists (set_prev_time (set_time (set_prev_time (set_time tb v) v) v') v').
    split; [| exact Hvv]. apply seek_eq.
    rewrite <- Hv'. apply _wrap_ext; reflexivity.
  - exists (set_prev_time
              (set_time (set_wrap_mode (set_prev_time (set_time tb v) v)
                           (wrap_mode tb)) v') v').
    split; [| exact Hvv]. unfold set_wrap. apply seek_eq.
    rewrite <- Hv'. apply _wrap_ext; reflexivity.
  - exists (set_prev_time
              (set_time (set_window_value (set_prev_time (set_time tb v) v)
                           (mkTimeWindow (t_min (window tb))
                              (t_max (window tb)))) v') v').
    split; [| exact Hvv]. unfold set_window. apply seek_eq.
    rewrite <- Hv'. apply _wrap_ext; [| reflexivity].
    cbn. destruct (window tb); reflexivity.
Qed.

(** X3.  Over a window whose upper end is infinite, every wrap mode,
    loop and ping-pong included, only clamps from below: [wrap(t)] is
    [max(t_min, t)], which is [t] itself from [t_min] on; no bounce is
    reported and [advance] never flips [dir_sign]. *)
Theorem infinite_window_clamps_from_below (tb : Timebase) (dt : Q) :
  t_max (window tb) = PInf ->
  (forall t, _wrap tb t = Ok (Qmax (t_min (window tb)) t)
             /\ (t_min (window tb) <= t -> Qmax (t_min (window tb)) t == t))
  /\ (forall t_before t_after,
        _wrap_with_bounce tb t_before t_after
        = Ok (Qmax (t_min (window tb)) t_after, false))
  /\ exists tb' l, advance tb dt = Ok (tb', l)
                   /\ _dir_sign tb' = _dir_sign tb.
Proof.
  intros Hb.
  assert (Hf : finite (window tb) = false)
    by (apply finite_false_spec; auto).
  split; [| split].
  - intros t. split.
    + rewrite _wrap_fallback by auto. rewrite Hb. reflexivity.
    + intros H. split_minmax; lra.
  - intros t_before t_after. unfold _wrap_with_bounce.
    rewrite Hf, Hb, orb_true_r. reflexivity.
  - destruct (running tb) eqn:Hr.
    + destruct (advance_running_spec tb dt Hr)
        as [v [bn [tb' [l [Hw [_ [Ha [_ [_ [_ [_ [Hd _]]]]]]]]]]]].
      exists tb', l. split; [exact Ha |].
      unfold _wrap_with_bounce in Hw.
      rewrite Hf, orb_true_r in Hw. injection Hw as _ <-.
      exact Hd.
    + exists tb, []. split; [apply advance_paused; exact Hr | reflexivity].
Qed.

Lemma infinite_window_clamps_from_below_witness :
  (forall t, _wrap tb_plain t = Ok (Qmax (t_min (window tb_plain)) t)
             /\ (t_min (window tb_plain) <= t ->
                 Qmax (t_min (window tb_plain)) t == t))
  /\ (forall t_before t_after,
        _wrap_with_bounce tb_plain t_before t_after
        = Ok (Qmax (t_min (window tb_plain)) t_after, false))
  /\ exists tb' l, advance tb_plain 1 = Ok (tb', l)
                   /\ _dir_sign tb' = _dir_sign tb_plain.
Proof. apply (infinite_window_clamps_from_below tb_plain 1). reflexivity. Defined.

(** ** The control surface *)

(** X4.  [toggle] negates what [running()] answers, whatever finite
    float the running tracker holds, and toggling twice restores the
    answer; [play] makes it true and [pause] false; none of the three
    touches the time, the rate or the cues. *)
Theorem toggle_negates_running (tb : Timebase) :
  running (toggle tb) = negb (running tb)
  /\ running (toggle (toggle tb)) = running tb
  /\ running (play tb) = true
  /\ running (pause tb) = false
  /\ (_time (toggle tb) = _time tb /\ _rate (toggle tb) = _rate tb
      /\ _instant_cues (toggle tb) = _instant_cues tb
      /\ _range_cues (toggle tb) = _range_cues tb
      /\ _range_state (toggle tb) = _range_state tb)
  /\ (_time (play tb) = _time tb /\ _rate (play tb) = _rate tb
      /\ _instant_cues (play tb) = _instant_cues tb
      /\ _range_cues (play tb) = _range_cues tb
      /\ _range_state (play tb) = _range_state tb)
  /\ (_time (pause tb) = _time tb /\ _rate (pause tb) = _rate tb
      /\ _instant_cues (pause tb) = _instant_cues tb
      /\ _range_cues (pause tb) = _range_cues tb
      /\ _range_state (pause tb) = _range_state tb).
Proof.
  assert (H : running (toggle tb) = negb (running tb)).
  { unfold toggle. destruct (running tb); reflexivity. }
  split; [exact H |].
  split.
  { assert (H2 : running (toggle (toggle tb)) = negb (running (toggle tb))).
    { unfold toggle at 1. destruct (running (toggle tb)); reflexivity. }
    rewrite H2, H. apply negb_involutive. }
  repeat split.
Qed.

(** X5.  [reverse] makes the rate non-positive and [forward] makes it
    non-negative, both keeping its magnitude; each is idempotent, and
    each undoes the direction of the other.  Neither touches the time. *)
Theorem reverse_and_forward_set_the_sign (tb : Timebase) :
  (rate (reverse tb) <= 0 /\ 0 <= rate (forward tb))
  /\ (Qabs (rate (reverse tb)) == Qabs (rate tb)
      /\ Qabs (rate (forward tb)) == Qabs (rate tb))
  /\ (rate (reverse (reverse tb)) == rate (reverse tb)
      /\ rate (forward (forward tb)) == rate (forward tb))
  /\ (rate (forward (reverse tb)) == Qabs (rate tb)
      /\ rate (reverse (forward tb)) == - Qabs (rate tb))
  /\ (_time (reverse tb) = _time tb /\ _time (forward tb) = _time tb).
Proof.
  unfold reverse, forward, rate. cbn [_rate set_rate_value _time].
  set (r := _rate tb).
  assert (Hn : 0 <= Qabs r) by apply Qabs_nonneg.
  assert (H1 : Qabs (- Qabs r) == Qabs r)
    by (rewrite Qabs_opp; apply Qabs_pos; exact Hn).
  assert (H2 : Qabs (Qabs r) == Qabs r) by (apply Qabs_pos; exact Hn).
  repeat split; try rewrite H1; try rewrite H2; try lra; reflexivity.
Qed.

(** X6.  A paused clock is frozen: any run of [advance] calls returns
    normally, leaves every attribute as it was and invokes no callback. *)
Theorem paused_clock_is_frozen (tb : Timebase) (dts : list Q) :
  advances (pause tb) dts = Ok (pause tb, [])
  /\ Forall (fun t => t = _time tb) (trajectory (pause tb) dts).
Proof.
  assert (Hr : running (pause tb) = false) by reflexivity.
  induction dts as [| dt rest [IH1 IH2]].
  - split; [reflexivity | constructor].
  - cbn [advances trajectory]. rewrite (advance_paused _ dt Hr).
    cbn [bindE]. rewrite IH1. split; [reflexivity |].
    constructor; [reflexivity | exact IH2].
Qed.


(** ** More on stepping *)

(** X7.  A frame that arrives later than [clamp_dt] is treated exactly
    as a frame of [clamp_dt]: the two [advance] calls give the same clock
    and the same invocations. *)
Theorem late_frame_is_capped (tb : Timebase) (dt : Q) :
  clamp_dt tb < dt -> advance tb dt = advance tb (clamp_dt tb).
Proof.
  intros H. unfold advance, _step, proposed, step_dt.
  apply Qle_bool_false in H. rewrite H.
  destruct (Qle_bool (clamp_dt tb) (clamp_dt tb)); reflexivity.
Qed.

Lemma late_frame_is_capped_witness :
  advance tb_demo 5 = advance tb_demo (clamp_dt tb_demo).
Proof. apply (late_frame_is_capped tb_demo 5). reflexivity. Defined.

Lemma step_dt_bounds (tb : Timebase) (dt : Q) :
  0 <= dt -> 0 <= clamp_dt tb ->
  0 <= step_dt tb dt /\ step_dt tb dt <= dt /\ step_dt tb dt <= clamp_dt tb.
Proof.
  intros H0 H1. unfold step_dt.
  destruct (Qle_bool dt (clamp_dt tb)) eqn:E;
    [apply Qle_bool_iff in E | apply Qle_bool_false in E]; lra.
Qed.

(** The new time is no farther from the old one than the proposed time
    is, unless a loop wraps around. *)
Lemma wrap_stays_near (tb : Timebase) (p v : Q) :
  in_window tb ->
  (wrap_mode tb = loop -> forall b,
     t_max (window tb) = Fin b -> t_min (window tb) < b ->
     t_min (window tb) <= p /\ p < b) ->
  _wrap tb p = Ok v ->
  Qabs (v - _time tb) <= Qabs (p - _time tb).
Proof.
  intros [Hin1 Hin2] Hloop Hw.
  destruct (finite (window tb)) eqn:Hf.
  - apply finite_spec in Hf. destruct Hf as [b [Hb Hlt]].
    rewrite Hb in Hin2. cbn [le_x] in Hin2.
    destruct (wrap_mode tb) eqn:Hm.
    + rewrite _wrap_fallback in Hw by auto. injection Hw as <-.
      apply clamp_near. split; [exact Hin1 | rewrite Hb; exact Hin2].
    + rewrite (_wrap_loop tb _ b Hm Hb Hlt) in Hw. injection Hw as <-.
      destruct (Hloop eq_refl b Hb Hlt) as [H1 H2].
      assert (E : t_min (window tb)
                  + fmod (p - t_min (window tb)) (b - t_min (window tb))
                  - _time tb == p - _time tb).
      { rewrite fmod_small by lra. ring. }
      rewrite E. apply Qle_refl.
    + rewrite (_wrap_pingpong tb _ b Hm Hb Hlt) in Hw. injection Hw as <-.
      apply pp_near; assumption.
  - rewrite _wrap_fallback in Hw by auto. injection Hw as <-.
    apply clamp_near. split; assumption.
Qed.

(** X8.  In exact arithmetic: for a clock whose time lies inside its
    window and whose [dir_sign] is [+1] or [-1], one [advance(dt_real)]
    changes time by at
    most [|rate| * |dt|], where [dt] is [dt_real] capped at [clamp_dt];
    for [dt_real >= 0] and [clamp_dt >= 0] that is at most
    [|rate| * clamp_dt] and at most [|rate| * dt_real].  Under loop over
    a finite window this holds for calls whose proposed time stays within
    [[t_min, t_max)]. *)
Theorem step_is_bounded_by_rate_and_cap (tb : Timebase) (dt : Q) :
  in_window tb ->
  unit_dir tb ->
  (wrap_mode tb = loop -> forall b,
     t_max (window tb) = Fin b -> t_min (window tb) < b ->
     t_min (window tb) <= proposed tb dt /\ proposed tb dt < b) ->
  exists tb' l,
    advance tb dt = Ok (tb', l)
    /\ Qabs (_time tb' - _time tb) <= Qabs (rate tb) * Qabs (step_dt tb dt)
    /\ (0 <= dt -> 0 <= clamp_dt tb ->
        Qabs (_time tb' - _time tb) <= Qabs (rate tb) * clamp_dt tb
        /\ Qabs (_time tb' - _time tb) <= Qabs (rate tb) * dt).
Proof.
  intros Hin Hd Hloop.
  assert (Hr0 : 0 <= Qabs (rate tb)) by apply Qabs_nonneg.
  assert (Hcap : forall x,
             x <= Qabs (rate tb) * Qabs (step_dt tb dt) ->
             0 <= dt -> 0 <= clamp_dt tb ->
             x <= Qabs (rate tb) * clamp_dt tb
             /\ x <= Qabs (rate tb) * dt).
  { intros x Hx H0 H1.
    destruct (step_dt_bounds tb dt H0 H1) as [Hs0 [Hs1 Hs2]].
    rewrite (Qabs_pos _ Hs0) in Hx.
    assert (0 <= Qabs (rate tb) * (clamp_dt tb - step_dt tb dt))
      by (apply Qmult_le_0_compat; lra).
    assert (0 <= Qabs (rate tb) * (dt - step_dt tb dt))
      by (apply Qmult_le_0_compat; lra).
    split; lra. }
  destruct (running tb) eqn:Hr.
  2:{ exists tb, []. split; [apply advance_paused; exact Hr |].
      assert (E : _time tb - _time tb == 0) by ring.
      assert (Hz : Qabs (_time tb - _time tb)
                   <= Qabs (rate tb) * Qabs (step_dt tb dt)).
      { rewrite E. change (Qabs 0) with 0.
        apply Qmult_le_0_compat; [exact Hr0 | apply Qabs_nonneg]. }
      split; [exact Hz | apply Hcap; exact Hz]. }
  destruct (advance_running_spec tb dt Hr)
    as [v [bn [tb' [l [_ [Hw [Ha [Ht _]]]]]]]].
  exists tb', l. split; [exact Ha |]. rewrite Ht.
  assert (Hb : Qabs (v - _time tb)
               <= Qabs (rate tb) * Qabs (step_dt tb dt)).
  { assert (Hp : Qabs (proposed tb dt - _time tb)
                 == Qabs (rate tb) * Qabs (step_dt tb dt)).
    { unfold proposed.
      assert (E : _time tb + eff_rate tb * step_dt tb dt - _time tb
                  == eff_rate tb * step_dt tb dt) by ring.
      rewrite E, Qabs_Qmult, (eff_rate_magnitude tb Hd). reflexivity. }
    rewrite <- Hp. apply wrap_stays_near; assumption. }
  split; [exact Hb | apply Hcap; exact Hb].
Qed.

Lemma step_is_bounded_by_rate_and_cap_witness :
  exists tb' l,
    advance tb_pingpong_high (1 # 4) = Ok (tb', l)
    /\ Qabs (_time tb' - _time tb_pingpong_high)
       <= Qabs (rate tb_pingpong_high)
          * Qabs (step_dt tb_pingpong_high (1 # 4))
    /\ (0 <= 1 # 4 -> 0 <= clamp_dt tb_pingpong_high ->
        Qabs (_time tb' - _time tb_pingpong_high)
        <= Qabs (rate tb_pingpong_high) * clamp_dt tb_pingpong_high
        /\ Qabs (_time tb' - _time tb_pingpong_high)
           <= Qabs (rate tb_pingpong_high) * (1 # 4)).
Proof.
  apply (step_is_bounded_by_rate_and_cap tb_pingpong_high (1 # 4)).
  - unfold in_window, contained; simpl. lra.
  - left. reflexivity.
  - intros H. discriminate H.
Defined.

Lemma pp_below (a b t : Q) :
  a < b -> a - (b - a) <= t -> t <= a ->
  a + tri (fmod (t - a) (2 * (b - a))) (b - a) == 2 * a - t.
Proof.
  intros Hlt H0 H1.
  rewrite <- (pp_period a b Hlt t).
  rewrite (pp_falling a b Hlt) by lra. ring.
Qed.

(** X9.  In exact arithmetic: under ping-pong over a finite window
    [[a, b]], a running step from a time strictly inside the window whose proposed time overshoots
    [t_max] by at most the window length is reflected: the new time is
    [2 * t_max - proposed], it lies in the window, and [dir_sign] flips.
    The same holds at [t_min], with new time [2 * t_min - proposed]. *)
Theorem pingpong_overshoot_is_reflected (tb : Timebase) (b dt : Q) :
  wrap_mode tb = pingpong ->
  t_max (window tb) = Fin b ->
  running tb = true ->
  t_min (window tb) < _time tb -> _time tb < b ->
  (b < proposed tb dt -> proposed tb dt <= b + (b - t_min (window tb)) ->
     exists tb' l,
       advance tb dt = Ok (tb', l)
       /\ _time tb' == 2 * b - proposed tb dt
       /\ (t_min (window tb) <= _time tb' /\ _time tb' < b)
       /\ _dir_sign tb' = _dir_sign tb * (-1))
  /\ (proposed tb dt < t_min (window tb) ->
      t_min (window tb) - (b - t_min (window tb)) <= proposed tb dt ->
        exists tb' l,
          advance tb dt = Ok (tb', l)
          /\ _time tb' == 2 * t_min (window tb) - proposed tb dt
          /\ (t_min (window tb) < _time tb' /\ _time tb' <= b)
          /\ _dir_sign tb' = _dir_sign tb * (-1)).
Proof.
  intros Hm Hb Hr Hlo Hhi.
  assert (Hlt : t_min (window tb) < b) by lra.
  destruct (advance_running_spec tb dt Hr)
    as [v [bn [tb' [l [Hw [Hv [Ha [Ht [_ [_ [_ [Hd _]]]]]]]]]]]].
  destruct (_wrap_with_bounce_pingpong tb b (_time tb) (proposed tb dt)
              Hm Hb Hlt) as [w [bn' [Hw' [_ Hbn]]]].
  rewrite Hw in Hw'. injection Hw' as <- <-.
  rewrite Hm in Hd. cbn [WrapMode_eqb] in Hd. rewrite andb_true_r in Hd.
  rewrite (_wrap_pingpong tb _ b Hm Hb Hlt) in Hv. injection Hv as Hv.
  split; intros H1 H2; exists tb', l; (split; [exact Ha |]); rewrite Ht.
  - assert (E : v == 2 * b - proposed tb dt)
      by (rewrite <- Hv; apply pp_falling; lra).
    split; [exact E |]. split; [lra |].
    assert (Hbt : bn = true).
    { apply Hbn. right; left. unfold opposite_sides. left. lra. }
    rewrite Hbt in Hd. exact Hd.
  - assert (E : v == 2 * t_min (window tb) - proposed tb dt)
      by (rewrite <- Hv; apply pp_below; lra).
    split; [exact E |]. split; [lra |].
    assert (Hbt : bn = true).
    { apply Hbn. left. unfold opposite_sides. right. lra. }
    rewrite Hbt in Hd. exact Hd.
Qed.

Lemma pingpong_overshoot_is_reflected_witness :
  exists tb' l,
    advance tb_pingpong_high (1 # 2) = Ok (tb', l)
    /\ _time tb' == 2 * 2 - proposed tb_pingpong_high (1 # 2)
    /\ (t_min (window tb_pingpong_high) <= _time tb' /\ _time tb' < 2)
    /\ _dir_sign tb' = _dir_sign tb_pingpong_high * (-1).
Proof.
  destruct (pingpong_overshoot_is_reflected tb_pingpong_high 2 (1 # 2))
    as [H _].
  - reflexivity.
  - reflexivity.
  - reflexivity.
  - reflexivity.
  - reflexivity.
  - apply H; vm_compute; [reflexivity | discriminate].
Defined.

(** A running step whose wrapped time equals the old time invokes no
    instant cue. *)
Lemma advance_without_motion (tb : Timebase) (dt : Q) :
  running tb = true ->
  (forall v, _wrap tb (proposed tb dt) = Ok v -> v == _time tb) ->
  exists tb',
    advance tb dt
    = Ok (tb', snd (fire_range (_time tb') 0 (_range_cues tb)
                      (_range_state tb)))
    /\ _time tb' == _time tb.
Proof.
  intros Hr Hsame.
  destruct (advance_running_spec tb dt Hr)
    as [v [bn [tb' [l [_ [Hv [Ha [Ht [_ [_ [_ [_ [_ [_ [_ Hl]]]]]]]]]]]]]]].
  pose proof (Hsame v Hv) as E.
  exists tb'. rewrite Ha, Hl, Ht, fire_instant_triggered.
  rewrite triggered_still by (symmetry; exact E).
  split; [reflexivity | exact E].
Qed.

(** X10.  A clamp clock that sits at an end of its window and is pushed
    further out stays there, and the step invokes no instant cue, not
    even one registered at that end: only range cues are examined. *)
Theorem pinned_clock_fires_no_instant_cue (tb : Timebase) (dt : Q) :
  wrap_mode tb = clamp \/ finite (window tb) = false ->
  running tb = true ->
  ordered (window tb) ->
  (exists b, t_max (window tb) = Fin b
             /\ _time tb == b /\ _time tb <= proposed tb dt)
  \/ (_time tb == t_min (window tb) /\ proposed tb dt <= _time tb) ->
  exists tb',
    advance tb dt
    = Ok (tb', snd (fire_range (_time tb') 0 (_range_cues tb)
                      (_range_state tb)))
    /\ _time tb' == _time tb.
Proof.
  intros Hm Hr Ho Hpin. apply advance_without_motion; [exact Hr |].
  intros v Hv. rewrite _wrap_fallback in Hv by exact Hm.
  injection Hv as <-. unfold ordered in Ho.
  destruct Hpin as [[b [Hb [Ht Hp]]] | [Ht Hp]].
  - rewrite Hb in *. cbn [min_x le_x] in *. split_minmax; lra.
  - destruct (t_max (window tb)) as [b |]; cbn [min_x le_x] in *;
      split_minmax; lra.
Qed.

Lemma pinned_clock_fires_no_instant_cue_witness :
  exists tb',
    advance tb_pinned (1 # 2)
    = Ok (tb', snd (fire_range (_time tb') 0 (_range_cues tb_pinned)
                      (_range_state tb_pinned)))
    /\ _time tb' == _time tb_pinned.
Proof.
  apply (pinned_clock_fires_no_instant_cue tb_pinned (1 # 2)).
  - left. reflexivity.
  - reflexivity.
  - unfold ordered; simpl. lra.
  - left. exists 2. split; [reflexivity |].
    split; [reflexivity | vm_compute; discriminate].
Defined.

(** X11.  A running clamp clock (or any clock over a window that is not
    finite) whose rate is 0, or whose step is of length 0, keeps its time
    when that time is inside the window, and invokes no instant cue. *)
Theorem still_clock_fires_no_instant_cue (tb : Timebase) (dt : Q) :
  wrap_mode tb = clamp \/ finite (window tb) = false ->
  running tb = true ->
  in_window tb ->
  rate tb == 0 \/ step_dt tb dt == 0 ->
  exists tb',
    advance tb dt
    = Ok (tb', snd (fire_range (_time tb') 0 (_range_cues tb)
                      (_range_state tb)))
    /\ _time tb' == _time tb.
Proof.
  intros Hm Hr [Hin1 Hin2] Hz. apply advance_without_motion; [exact Hr |].
  assert (Hp : proposed tb dt == _time tb).
  { unfold proposed, eff_rate. destruct Hz as [Hz | Hz]; rewrite Hz; ring. }
  intros v Hv. rewrite _wrap_fallback in Hv by exact Hm. injection Hv as <-.
  destruct (t_max (window tb)) as [b |]; cbn [min_x le_x] in *;
    split_minmax; lra.
Qed.

Lemma still_clock_fires_no_instant_cue_witness :
  exists tb',
    advance tb_still (1 # 2)
    = Ok (tb', snd (fire_range (_time tb') 0 (_range_cues tb_still)
                      (_range_state tb_still)))
    /\ _time tb' == _time tb_still.
Proof.
  apply (still_clock_fires_no_instant_cue tb_still (1 # 2)).
  - left. reflexivity.
  - reflexivity.
  - unfold in_window, contained; simpl. lra.
  - left. reflexivity.
Defined.


(** ** Cues and motion *)

(** What [advance] never changes. *)
Lemma advance_keeps (tb tb' : Timebase) (dt : Q) (l : list call) :
  advance tb dt = Ok (tb', l) ->
  _rate tb' = _rate tb /\ _running tb' = _running tb
  /\ clamp_dt tb' = clamp_dt tb /\ window tb' = window tb
  /\ wrap_mode tb' = wrap_mode tb
  /\ _instant_cues tb' = _instant_cues tb
  /\ _range_cues tb' = _range_cues tb.
Proof.
  intros Ha. destruct (running tb) eqn:Hr.
  - destruct (_wrap_with_bounce_value tb (_time tb) (proposed tb dt))
      as [v [bn [Hw _]]].
    rewrite (advance_running tb dt v bn Hr Hw) in Ha.
    unfold _fire_cues, moved in Ha. injection Ha as <- _.
    destruct (bn && WrapMode_eqb (wrap_mode tb) pingpong); repeat split.
  - rewrite (advance_paused tb dt Hr) in Ha. injection Ha as <- _.
    repeat split.
Qed.

Lemma advance_same_motion (tb1 tb2 : Timebase) (dt : Q) :
  same_motion tb1 tb2 ->
  exists t1 l1 t2 l2,
    advance tb1 dt = Ok (t1, l1) /\ advance tb2 dt = Ok (t2, l2)
    /\ same_motion t1 t2.
Proof.
  intros Hs.
  destruct (advance_total tb1 dt) as [t1 [l1 H1]].
  destruct (advance_total tb2 dt) as [t2 [l2 H2]].
  exists t1, l1, t2, l2. split; [exact H1 |]. split; [exact H2 |].
  destruct (advance_keeps _ _ _ _ H1) as [A1 [A2 [A3 [A4 [A5 _]]]]].
  destruct (advance_keeps _ _ _ _ H2) as [B1 [B2 [B3 [B4 [B5 _]]]]].
  destruct Hs as [S1 [S2 [S3 [S4 [S5 [S6 S7]]]]]].
  assert (Hrun : running tb1 = running tb2)
    by (unfold running; rewrite S3; reflexivity).
  assert (Hp : proposed tb1 dt = proposed tb2 dt).
  { unfold proposed, eff_rate, step_dt, rate.
    rewrite S1, S2, S4, S6, S7. reflexivity. }
  unfold same_motion.
  rewrite A1, A2, A3, A4, A5, B1, B2, B3, B4, B5.
  destruct (running tb1) eqn:Hr1.
  - assert (Hr2 : running tb2 = true) by congruence.
    destruct (advance_running_spec tb1 dt Hr1)
      as [v [bn [t1' [l1' [Hw1 [_ [Ha1 [Ht1 [_ [_ [_ [Hd1 _]]]]]]]]]]]].
    destruct (advance_running_spec tb2 dt Hr2)
      as [v2 [bn2 [t2' [l2' [Hw2 [_ [Ha2 [Ht2 [_ [_ [_ [Hd2 _]]]]]]]]]]]].
    rewrite H1 in Ha1. injection Ha1 as <- <-.
    rewrite H2 in Ha2. injection Ha2 as <- <-.
    rewrite (_wrap_with_bounce_ext tb1 tb2 _ _ S5 S4), S1, Hp, Hw2 in Hw1.
    injection Hw1 as <- <-.
    rewrite Ht1, Ht2, Hd1, Hd2, S4, S7. repeat split; assumption.
  - assert (Hr2 : running tb2 = false) by congruence.
    rewrite (advance_paused tb1 dt Hr1) in H1. injection H1 as <- _.
    rewrite (advance_paused tb2 dt Hr2) in H2. injection H2 as <- _.
    repeat split; assumption.
Qed.

Lemma trajectory_same_motion (dts : list Q) :
  forall tb1 tb2, same_motion tb1 tb2 ->
    trajectory tb1 dts = trajectory tb2 dts.
Proof.
  induction dts as [| dt rest IH]; intros tb1 tb2 Hs; [reflexivity |].
  destruct (advance_same_motion tb1 tb2 dt Hs)
    as [t1 [l1 [t2 [l2 [H1 [H2 Hs']]]]]].
  cbn [trajectory]. rewrite H1, H2, (IH t1 t2 Hs').
  destruct Hs' as [E _]. rewrite E. reflexivity.
Qed.

(** A clock without cues invokes nothing. *)
Lemma advances_without_cues (dts : list Q) :
  forall tb, _instant_cues tb = [] -> _range_cues tb = [] ->
    snd (run tb dts) = [].
Proof.
  induction dts as [| dt rest IH]; intros tb Hi Hrc; [reflexivity |].
  destruct (advance_total tb dt) as [tb1 [l1 H1]].
  destruct (advance_keeps _ _ _ _ H1) as [_ [_ [_ [_ [_ [Ki Kr]]]]]].
  assert (Hl1 : l1 = []).
  { destruct (running tb) eqn:Hr.
    - destruct (advance_running_spec tb dt Hr)
        as [v [bn [tb' [l [_ [_ [Ha [_ [_ [_ [_ [_ [_ [_ [_ Hl]]]]]]]]]]]]]]].
      rewrite H1 in Ha. injection Ha as _ <-.
      rewrite Hl, Hi, Hrc. cbn. destruct (negb (Qeq_bool (_time tb) v));
        reflexivity.
    - rewrite (advance_paused tb dt Hr) in H1. injection H1 as _ <-.
      reflexivity. }
  specialize (IH tb1 (eq_trans Ki Hi) (eq_trans Kr Hrc)).
  unfold run in *. cbn [advances]. rewrite H1. cbn [bindE].
  destruct (advances tb1 rest) as [[tb2 l2] | e]; cbn [snd] in *;
    [| reflexivity].
  rewrite Hl1, IH. reflexivity.
Qed.

(** X12.  As long as no callback acts on the clock itself, cues never
    influence its motion: registering an
    instant cue, registering a range cue, or clearing all cues leaves the
    times read after every call of any run of [advance] calls exactly as
    they were; and after [clear_cues] no run invokes any callback. *)
Theorem cues_never_move_time (tb : Timebase) (dts : list Q) :
  (forall t fn, trajectory (on tb t fn) dts = trajectory tb dts)
  /\ (forall t0 t1 on_enter on_exit,
        trajectory (on_range tb t0 t1 on_enter on_exit) dts
        = trajectory tb dts)
  /\ trajectory (clear_cues tb) dts = trajectory tb dts
  /\ snd (run (clear_cues tb) dts) = [].
Proof.
  split; [| split; [| split]].
  - intros t fn. apply trajectory_same_motion. repeat split.
  - intros t0 t1 e x. apply trajectory_same_motion. repeat split.
  - apply trajectory_same_motion. repeat split.
  - apply advances_without_cues; reflexivity.
Qed.

(** *** Range cues, one flag each *)

Lemma state_get_set_index (st : list (range_key * bool))
  (a b a' b' : Q) (i j : nat) (v : bool) :
  i <> j ->
  state_get (state_set st (a, b, i) v) (a', b', j) = state_get st (a', b', j).
Proof.
  intros Hij.
  assert (Hne : forall x y, range_key_eqb (x, y, i) (a', b', j) = false).
  { intros x y. unfold range_key_eqb.
    apply Nat.eqb_neq in Hij. rewrite Hij, andb_false_r. reflexivity. }
  induction st as [| [[[a0 b0] i0] v0] rest IH]; cbn [state_set state_get].
  - rewrite Hne. reflexivity.
  - destruct (range_key_eqb (a0, b0, i0) (a, b, i)) eqn:E;
      cbn [state_get].
    + assert (Ei : i0 = i).
      { unfold range_key_eqb in E. apply andb_true_iff in E.
        destruct E as [_ E]. apply Nat.eqb_eq in E. exact E. }
      subst i0. rewrite Hne. reflexivity.
    + rewrite IH. reflexivity.
Qed.

Lemma fire_range_cons (t : Q) (idx : nat) (t0 t1 : Q) (en ex : callback)
  (rest : list (Q * Q * callback * callback)) (st : list (range_key * bool)) :
  let key := (t0, t1, idx) in
  let st1 :=
    if between t t0 t1 && negb (state_get st key) then state_set st key true
    else if negb (between t t0 t1) && state_get st key
         then state_set st key false
         else st in
  fst (fire_range t idx ((t0, t1, en, ex) :: rest) st)
  = fst (fire_range t (S idx) rest st1)
  /\ snd (fire_range t idx ((t0, t1, en, ex) :: rest) st)
     = (if between t t0 t1 && negb (state_get st key) then [(en, t)]
        else if negb (between t t0 t1) && state_get st key then [(ex, t)]
        else [])
       ++ snd (fire_range t (S idx) rest st1).
Proof.
  cbn [fire_range].
  destruct (between t t0 t1 && negb (state_get st (t0, t1, idx)));
    [| destruct (negb (between t t0 t1) && state_get st (t0, t1, idx))];
    cbv zeta;
    try (destruct (fire_range t (S idx) rest _) as [st' l']);
    split; reflexivity.
Qed.

Lemma range_calls_ext (t : Q) (cues : list (Q * Q * callback * callback)) :
  forall idx st st',
    (forall a b j, (idx <= j)%nat ->
       state_get st (a, b, j) = state_get st' (a, b, j)) ->
    range_calls t idx cues st = range_calls t idx cues st'.
Proof.
  induction cues as [| [[[t0 t1] en] ex] rest IH]; intros idx st st' H;
    [reflexivity |].
  cbn [range_calls]. rewrite (H t0 t1 idx (Nat.le_refl idx)).
  rewrite (IH (S idx) st st'); [reflexivity |].
  intros a b j Hj. apply H. lia.
Qed.

(** The loop over the range cues judges each cue against its own flag as
    it was before the loop, and leaves each flag telling whether the time
    is inside that cue's range. *)
Lemma fire_range_spec (t : Q) (cues : list (Q * Q * callback * callback)) :
  forall idx st,
    snd (fire_range t idx cues st) = range_calls t idx cues st
    /\ (forall a b j, (j < idx)%nat ->
          state_get (fst (fire_range t idx cues st)) (a, b, j)
          = state_get st (a, b, j))
    /\ (forall i t0 t1 en ex,
          nth_error cues i = Some (t0, t1, en, ex) ->
          state_get (fst (fire_range t idx cues st)) (t0, t1, (idx + i)%nat)
          = between t t0 t1).
Proof.
  induction cues as [| [[[c0 c1] cen] cex] rest IH]; intros idx st.
  - split; [reflexivity |]. split; [reflexivity |].
    intros i t0 t1 en ex H. destruct i; discriminate H.
  - destruct (fire_range_cons t idx c0 c1 cen cex rest st) as [Ef Es].
    cbv zeta in Ef, Es.
    set (st1 := if between t c0 c1 && negb (state_get st (c0, c1, idx))
                then state_set st (c0, c1, idx) true
                else if negb (between t c0 c1) && state_get st (c0, c1, idx)
                     then state_set st (c0, c1, idx) false
                     else st) in *.
    destruct (IH (S idx) st1) as [IHs [IHl IHf]].
    assert (Hother : forall a b j, j <> idx ->
              state_get st1 (a, b, j) = state_get st (a, b, j)).
    { intros a b j Hj. unfold st1.
      destruct (between t c0 c1 && negb (state_get st (c0, c1, idx)));
        [apply state_get_set_index; auto |].
      destruct (negb (between t c0 c1) && state_get st (c0, c1, idx));
        [apply state_get_set_index; auto | reflexivity]. }
    assert (Hown : state_get st1 (c0, c1, idx) = between t c0 c1).
    { unfold st1.
      destruct (between t c0 c1), (state_get st (c0, c1, idx)) eqn:Eg;
        cbn [negb andb]; rewrite ?state_get_set; auto. }
    split; [| split].
    + rewrite Es, IHs. cbn [range_calls]. f_equal.
      apply range_calls_ext. intros a b j Hj. apply Hother. lia.
    + intros a b j Hj. rewrite Ef, IHl by lia. apply Hother. lia.
    + intros i t0 t1 en ex Hi. rewrite Ef. destruct i as [| i].
      * cbn in Hi. injection Hi as <- <- <- <-.
        rewrite Nat.add_0_r, IHl by lia. exact Hown.
      * cbn in Hi. rewrite <- (IHf i t0 t1 en ex Hi).
        f_equal. f_equal. lia.
Qed.

Lemma range_calls_In (t : Q) (cues : list (Q * Q * callback * callback))
  (st : list (range_key * bool)) :
  forall idx i t0 t1 en ex,
    nth_error cues i = Some (t0, t1, en, ex) ->
    (between t t0 t1 = true ->
     state_get st (t0, t1, (idx + i)%nat) = false ->
     In (en, t) (range_calls t idx cues st))
    /\ (between t t0 t1 = false ->
        state_get st (t0, t1, (idx + i)%nat) = true ->
        In (ex, t) (range_calls t idx cues st)).
Proof.
  induction cues as [| [[[c0 c1] cen] cex] rest IH];
    intros idx i t0 t1 en ex Hi; [destruct i; discriminate Hi |].
  cbn [range_calls]. destruct i as [| i].
  - cbn in Hi. injection Hi as <- <- <- <-. rewrite Nat.add_0_r.
    split; intros Hb Hs; rewrite Hb, Hs; cbn; auto.
  - cbn in Hi. destruct (IH (S idx) i t0 t1 en ex Hi) as [H1 H2].
    replace (idx + S i)%nat with (S idx + i)%nat by lia.
    split; intros Hb Hs; apply in_or_app; right; auto.
Qed.

(** X13.  On a running [advance], after the instant cues, each range cue
    is judged on its own flag as it stood before the call, whatever the
    other cues are, cues with the same interval included: a cue whose
    flag is off and whose interval contains the new time has [on_enter]
    invoked with that time, a cue whose flag is on and whose interval
    does not contain it has [on_exit] invoked; and after the call every
    registered range cue's flag tells whether the new time is inside its
    interval. *)
Theorem range_cues_are_judged_independently (tb : Timebase) (dt : Q) :
  running tb = true ->
  exists tb',
    advance tb dt
    = Ok (tb', triggered (_time tb) (_time tb') (_instant_cues tb)
               ++ range_calls (_time tb') 0 (_range_cues tb)
                    (_range_state tb))
    /\ (forall i t0 t1 en ex,
          nth_error (_range_cues tb) i = Some (t0, t1, en, ex) ->
          (between (_time tb') t0 t1 = true ->
           state_get (_range_state tb) (t0, t1, i) = false ->
           In (en, _time tb')
              (range_calls (_time tb') 0 (_range_cues tb) (_range_state tb)))
          /\ (between (_time tb') t0 t1 = false ->
              state_get (_range_state tb) (t0, t1, i) = true ->
              In (ex, _time tb')
                 (range_calls (_time tb') 0 (_range_cues tb)
                    (_range_state tb)))
          /\ state_get (_range_state tb') (t0, t1, i)
             = between (_time tb') t0 t1).
Proof.
  intros Hr.
  destruct (advance_running_spec tb dt Hr)
    as [v [bn [tb' [l [_ [_ [Ha [Ht [_ [_ [_ [_ [_ [_ [Hs Hl]]]]]]]]]]]]]]].
  destruct (fire_range_spec v (_range_cues tb) 0 (_range_state tb))
    as [Fs [_ Ff]].
  exists tb'. rewrite Ha, Hl, Ht, Hs, fire_instant_triggered, Fs.
  split; [reflexivity |].
  intros i t0 t1 en ex Hi.
  destruct (range_calls_In v (_range_cues tb) (_range_state tb)
              0 i t0 t1 en ex Hi) as [H1 H2].
  split; [exact H1 |]. split; [exact H2 |].
  apply (Ff i t0 t1 en ex Hi).
Qed.

Lemma range_cues_are_judged_independently_witness :
  (exists tb',
     advance tb_two_ranges (3 # 2)
     = Ok (tb', triggered (_time tb_two_ranges) (_time tb')
                  (_instant_cues tb_two_ranges)
                ++ range_calls (_time tb') 0 (_range_cues tb_two_ranges)
                     (_range_state tb_two_ranges))
     /\ (forall i t0 t1 en ex,
           nth_error (_range_cues tb_two_ranges) i = Some (t0, t1, en, ex) ->
           (between (_time tb') t0 t1 = true ->
            state_get (_range_state tb_two_ranges) (t0, t1, i) = false ->
            In (en, _time tb')
               (range_calls (_time tb') 0 (_range_cues tb_two_ranges)
                  (_range_state tb_two_ranges)))
           /\ (between (_time tb') t0 t1 = false ->
               state_get (_range_state tb_two_ranges) (t0, t1, i) = true ->
               In (ex, _time tb')
                  (range_calls (_time tb') 0 (_range_cues tb_two_ranges)
                     (_range_state tb_two_ranges)))
           /\ state_get (_range_state tb') (t0, t1, i)
              = between (_time tb') t0 t1))
  /\ (_range_cues tb_two_ranges
      = [(1, 2, "enter_a"%string, "exit_a"%string);
         (1, 2, "enter_b"%string, "exit_b"%string)]
      /\ observe tb_two_ranges [3 # 2; 3 # 2]
         = [(3 # 2, [("enter_a"%string, 3 # 2); ("enter_b"%string, 3 # 2)]);
            (3, [("exit_a"%string, 12 # 4); ("exit_b"%string, 12 # 4)])]).
Proof.
  split.
  - apply (range_cues_are_judged_independently tb_two_ranges (3 # 2)).
    reflexivity.
  - split; vm_compute; reflexivity.
Defined.

(** X14.  [on_range] appends the cue, gives it a flag of its own that is
    off, and leaves the flag of every cue registered before, and the
    instant cues, as they were.  So a cue registered while the clock is
    running has [on_enter] invoked by the next [advance] that ends inside
    its interval, also when the time was inside it all along. *)
Theorem on_range_registers_a_fresh_cue (tb : Timebase) (t0 t1 : Q)
  (on_enter on_exit : callback) :
  let tb1 := on_range tb t0 t1 on_enter on_exit in
  let n := List.length (_range_cues tb) in
  _range_cues tb1 = _range_cues tb ++ [(t0, t1, on_enter, on_exit)]
  /\ _instant_cues tb1 = _instant_cues tb
  /\ state_get (_range_state tb1) (t0, t1, n) = false
  /\ (forall a b j, j <> n ->
        state_get (_range_state tb1) (a, b, j)
        = state_get (_range_state tb) (a, b, j))
  /\ (forall dt, running tb = true ->
        exists tb' l,
          advance tb1 dt = Ok (tb', l)
          /\ (between (_time tb') t0 t1 = true ->
              In (on_enter, _time tb') l)).
Proof.
  intros tb1 n.
  assert (Hflag : state_get (_range_state tb1) (t0, t1, n) = false)
    by apply state_get_set.
  split; [reflexivity |]. split; [reflexivity |]. split; [exact Hflag |].
  split.
  { intros a b j Hj. unfold tb1, on_range.
    cbn [_range_state set_range_state set_range_cues _range_cues].
    apply state_get_set_index. auto. }
  intros dt Hr.
  assert (Hr1 : running tb1 = true) by exact Hr.
  destruct (advance_running_spec tb1 dt Hr1)
    as [v [bn [tb' [l [_ [_ [Ha [Ht [_ [_ [_ [_ [_ [_ [_ Hl]]]]]]]]]]]]]]].
  exists tb', l. split; [exact Ha |]. intros Hin.
  destruct (fire_range_spec v (_range_cues tb1) 0 (_range_state tb1))
    as [Fs _].
  rewrite Hl, Fs. apply in_or_app. right.
  assert (Hn : nth_error (_range_cues tb1) n
               = Some (t0, t1, on_enter, on_exit)).
  { unfold tb1, on_range. cbn [_range_cues set_range_state set_range_cues].
    unfold n. rewrite nth_error_app2 by lia. rewrite Nat.sub_diag.
    reflexivity. }
  rewrite Ht in Hin |- *.
  destruct (range_calls_In v (_range_cues tb1) (_range_state tb1)
              0 n t0 t1 on_enter on_exit Hn) as [H1 _].
  apply H1; assumption.
Qed.


(** ** The direction multiplier over the life of a clock *)

(** X15.  [dir_sign] is [+1] or [-1] throughout: a fresh clock has [+1],
    and [advance], [seek], [set_window], [set_wrap], the playback
    controls and the cue operations all keep it [+1] or [-1]. *)
Theorem dir_sign_is_a_unit (tb : Timebase) :
  (forall t0 r m w c, unit_dir (__init__ t0 r m w c))
  /\ (unit_dir tb ->
      (forall dt, exists tb' l, advance tb dt = Ok (tb', l) /\ unit_dir tb')
      /\ (forall t, exists tb', seek tb t = Ok (tb', []) /\ unit_dir tb')
      /\ (forall a b, exists tb',
            set_window tb a b = Ok (tb', []) /\ unit_dir tb')
      /\ (forall m, exists tb', set_wrap tb m = Ok (tb', []) /\ unit_dir tb')
      /\ (unit_dir (play tb) /\ unit_dir (pause tb) /\ unit_dir (toggle tb)
          /\ unit_dir (reverse tb) /\ unit_dir (forward tb)
          /\ forall r, unit_dir (set_rate tb r))
      /\ (unit_dir (clear_cues tb)
          /\ (forall t fn, unit_dir (on tb t fn))
          /\ forall t0 t1 e x, unit_dir (on_range tb t0 t1 e x))).
Proof.
  split; [intros; left; reflexivity |].
  intros Hd.
  assert (Hseek : forall tb0 t, unit_dir tb0 ->
            exists tb', seek tb0 t = Ok (tb', []) /\ unit_dir tb').
  { intros tb0 t H0. destruct (_wrap_total tb0 t) as [v Hv].
    eexists. split; [apply seek_eq; exact Hv | exact H0]. }
  split.
  { intros dt. destruct (running tb) eqn:Hr.
    - destruct (advance_running_spec tb dt Hr)
        as [v [bn [tb' [l [_ [_ [Ha [_ [_ [_ [_ [Hs _]]]]]]]]]]]].
      exists tb', l. split; [exact Ha |]. unfold unit_dir. rewrite Hs.
      destruct (bn && WrapMode_eqb (wrap_mode tb) pingpong); [| exact Hd].
      destruct Hd as [Hd | Hd]; rewrite Hd; [right | left]; reflexivity.
    - exists tb, []. split; [apply advance_paused; exact Hr | exact Hd]. }
  split; [intros t; apply Hseek; exact Hd |].
  split; [intros a b; unfold set_window; apply Hseek; exact Hd |].
  split; [intros m; unfold set_wrap; apply Hseek; exact Hd |].
  repeat split; intros; exact Hd.
Qed.

Lemma dir_sign_is_a_unit_witness :
  (forall dt, exists tb' l,
      advance tb_pingpong_edge dt = Ok (tb', l) /\ unit_dir tb')
  /\ (forall t, exists tb',
        seek tb_pingpong_edge t = Ok (tb', []) /\ unit_dir tb').
Proof.
  destruct (dir_sign_is_a_unit tb_pingpong_edge) as [_ H].
  destruct H as [H1 [H2 _]]; [left; reflexivity |].
  split; assumption.
Defined.

(** X16.  In exact arithmetic: under ping-pong over a finite window, a
    running step whose proposed time is exactly [t_max], or exactly [t_min], lands there and
    flips [dir_sign], through the [1e-9] tolerance, whether or not the
    old time was on the other side. *)
Theorem landing_on_a_boundary_flips_dir_sign (tb : Timebase) (b dt : Q) :
  wrap_mode tb = pingpong ->
  t_max (window tb) = Fin b ->
  t_min (window tb) < b ->
  running tb = true ->
  proposed tb dt == b \/ proposed tb dt == t_min (window tb) ->
  exists tb' l,
    advance tb dt = Ok (tb', l)
    /\ _time tb' == proposed tb dt
    /\ _dir_sign tb' = _dir_sign tb * (-1).
Proof.
  intros Hm Hb Hlt Hr Hp.
  destruct (advance_running_spec tb dt Hr)
    as [v [bn [tb' [l [Hw [Hv [Ha [Ht [_ [_ [_ [Hd _]]]]]]]]]]]].
  destruct (_wrap_with_bounce_pingpong tb b (_time tb) (proposed tb dt)
              Hm Hb Hlt) as [w [bn' [Hw' [_ Hbn]]]].
  rewrite Hw in Hw'. injection Hw' as <- <-.
  rewrite Hm in Hd. cbn [WrapMode_eqb] in Hd. rewrite andb_true_r in Hd.
  rewrite (_wrap_pingpong tb _ b Hm Hb Hlt) in Hv. injection Hv as Hv.
  assert (E : v == proposed tb dt).
  { rewrite <- Hv. apply pp_rising; destruct Hp as [Hp | Hp]; lra. }
  exists tb', l. split; [exact Ha |]. rewrite Ht. split; [exact E |].
  assert (Hbt : bn = true).
  { apply Hbn. right; right.
    assert (He : 0 < eps) by reflexivity.
    destruct Hp as [Hp | Hp]; [right | left]; split_abs; lra. }
  rewrite Hbt in Hd. exact Hd.
Qed.

Lemma landing_on_a_boundary_flips_dir_sign_witness :
  exists tb' l,
    advance tb_pingpong_near (1 # 2) = Ok (tb', l)
    /\ _time tb' == proposed tb_pingpong_near (1 # 2)
    /\ _dir_sign tb' = _dir_sign tb_pingpong_near * (-1).
Proof.
  apply (landing_on_a_boundary_flips_dir_sign tb_pingpong_near 2 (1 # 2)).
  - reflexivity.
  - reflexivity.
  - reflexivity.
  - reflexivity.
  - left. reflexivity.
Defined.




(** ** Coordinate conversion *)

Module CoordinatesFacts.

Import Coordinates.

(** The coordinate frames that pass the validation of the dataclass. *)
Lemma __post_init___ok (c : Coords) :
  __post_init__ c = Ok c <->
  ~ meters_per_unit c == 0
  /\ (x_right c = -1 \/ x_right c = 1)%Z
  /\ (y_up c = -1 \/ y_up c = 1)%Z.
Proof.
  unfold __post_init__.
  destruct (Qeq_bool (meters_per_unit c) 0) eqn:Em.
  - apply Qeq_bool_iff in Em. split; [discriminate | tauto].
  - apply Qeq_bool_false in Em.
    destruct (Z.eqb_spec (x_right c) (-1)), (Z.eqb_spec (x_right c) 1),
      (Z.eqb_spec (y_up c) (-1)), (Z.eqb_spec (y_up c) 1); simpl;
      split; try discriminate; try tauto; intros [_ [Hx Hy]]; lia.
Qed.

(** C10.  For every frame with [meters_per_unit != 0] and [x_right],
    [y_up] in [{-1, +1}], and every world point [(x_m, y_m)],
    [world_to_scene_point] returns normally, and [scene_to_world_point]
    applied to the first two components of its result gives back
    [(x_m, y_m)]. *)
Theorem scene_to_world_inverts_world_to_scene (c : Coords) (x_m y_m : Q) :
  ~ meters_per_unit c == 0 ->
  (x_right c = -1 \/ x_right c = 1)%Z ->
  (y_up c = -1 \/ y_up c = 1)%Z ->
  exists sc_x sc_y,
    world_to_scene_point c x_m y_m = Ok (sc_x, sc_y, 0)
    /\ fst (scene_to_world_point c sc_x sc_y) == x_m
    /\ snd (scene_to_world_point c sc_x sc_y) == y_m.
Proof.
  intros Hm Hx Hy.
  unfold world_to_scene_point, world_len_to_scene.
  pose proof Hm as Hm'. apply Qeq_bool_false in Hm'. rewrite Hm'. simpl.
  do 2 eexists. split; [reflexivity |].
  unfold scene_to_world_point, scene_len_to_world. simpl.
  destruct Hx as [-> | ->], Hy as [-> | ->]; split; field; exact Hm.
Qed.

Lemma scene_to_world_inverts_world_to_scene_witness :
  exists sc_x sc_y,
    world_to_scene_point frame_left 3 5 = Ok (sc_x, sc_y, 0)
    /\ fst (scene_to_world_point frame_left sc_x sc_y) == 3
    /\ snd (scene_to_world_point frame_left sc_x sc_y) == 5.
Proof.
  apply (scene_to_world_inverts_world_to_scene frame_left 3 5).
  - simpl. lra.
  - left. reflexivity.
  - right. reflexivity.
Defined.

End CoordinatesFacts.

(** ** More on coordinate conversion *)

Module CoordinatesMore.

Import Coordinates.

(** X18.  Validation at construction checks [meters_per_unit] first,
    then [x_right], then [y_up]: a zero scale raises the scale error
    whatever the axes are, a bad [x_right] raises its error whatever
    [y_up] is, and the frame is accepted otherwise. *)
Theorem validation_reports_the_first_bad_field (c : Coords) :
  (meters_per_unit c == 0 ->
   __post_init__ c = Raise (ValueError "meters_per_unit cannot be zero"))
  /\ (~ meters_per_unit c == 0 ->
      x_right c <> (-1)%Z -> x_right c <> 1%Z ->
      __post_init__ c = Raise (ValueError "x_right must be +1 or -1"))
  /\ (~ meters_per_unit c == 0 ->
      (x_right c = -1 \/ x_right c = 1)%Z ->
      y_up c <> (-1)%Z -> y_up c <> 1%Z ->
      __post_init__ c = Raise (ValueError "y_up must be +1 or -1"))
  /\ (~ meters_per_unit c == 0 ->
      (x_right c = -1 \/ x_right c = 1)%Z ->
      (y_up c = -1 \/ y_up c = 1)%Z ->
      __post_init__ c = Ok c).
Proof.
  unfold __post_init__.
  split; [| split; [| split]].
  - intros H. apply Qeq_bool_iff in H. rewrite H. reflexivity.
  - intros H Hx1 Hx2. apply Qeq_bool_false in H. rewrite H.
    apply Z.eqb_neq in Hx1, Hx2. rewrite Hx1, Hx2. reflexivity.
  - intros H Hx Hy1 Hy2. apply Qeq_bool_false in H. rewrite H.
    apply Z.eqb_neq in Hy1, Hy2. rewrite Hy1, Hy2.
    destruct Hx as [-> | ->]; reflexivity.
  - intros H Hx Hy. apply Qeq_bool_false in H. rewrite H.
    destruct Hx as [-> | ->], Hy as [-> | ->]; reflexivity.
Qed.

(** X19.  The two length conversions are mutually inverse when
    [meters_per_unit != 0]; when it is 0, as after an assignment to the
    field, [world_len_to_scene] and [world_to_scene_point] raise
    [ValueError], while [scene_len_to_world] returns 0 for every length. *)
Theorem length_conversions_are_inverse (c : Coords) (x y : Q) :
  (~ meters_per_unit c == 0 ->
   (exists u, world_len_to_scene c x = Ok u
              /\ scene_len_to_world c u == x)
   /\ (exists w, world_len_to_scene c (scene_len_to_world c x) = Ok w
                 /\ w == x))
  /\ (meters_per_unit c == 0 ->
      world_len_to_scene c x
      = Raise (ValueError "The meters_per_unit conversion cannot be zero.")
      /\ world_to_scene_point c x y
         = Raise (ValueError "The meters_per_unit conversion cannot be zero.")
      /\ scene_len_to_world c x == 0).
Proof.
  unfold world_to_scene_point, world_len_to_scene, scene_len_to_world.
  split.
  - intros H. pose proof H as H'. apply Qeq_bool_false in H'. rewrite H'.
    split; eexists; (split; [reflexivity | field; exact H]).
  - intros H. pose proof H as H'. apply Qeq_bool_iff in H'. rewrite H'.
    split; [reflexivity |]. split; [reflexivity |]. rewrite H. ring.
Qed.

(** X20.  For every frame with [meters_per_unit != 0] and [x_right],
    [y_up] in [{-1, +1}], going from a scene point to the world and back
    returns the scene point: [world_to_scene_point] applied to
    [scene_to_world_point(x_sc, y_sc)] gives [(x_sc, y_sc, 0)]. *)
Theorem world_to_scene_inverts_scene_to_world (c : Coords) (x_sc y_sc : Q) :
  ~ meters_per_unit c == 0 ->
  (x_right c = -1 \/ x_right c = 1)%Z ->
  (y_up c = -1 \/ y_up c = 1)%Z ->
  exists sx sy,
    world_to_scene_point c (fst (scene_to_world_point c x_sc y_sc))
      (snd (scene_to_world_point c x_sc y_sc)) = Ok (sx, sy, 0)
    /\ sx == x_sc /\ sy == y_sc.
Proof.
  intros Hm Hx Hy.
  unfold world_to_scene_point, world_len_to_scene.
  pose proof Hm as Hm'. apply Qeq_bool_false in Hm'. rewrite Hm'.
  cbn [bind].
  do 2 eexists. split; [reflexivity |].
  unfold scene_to_world_point, scene_len_to_world. cbn [fst snd].
  destruct Hx as [-> | ->], Hy as [-> | ->]; split; field; exact Hm.
Qed.

Lemma world_to_scene_inverts_scene_to_world_witness :
  exists sx sy,
    world_to_scene_point frame_left
      (fst (scene_to_world_point frame_left 3 5))
      (snd (scene_to_world_point frame_left 3 5)) = Ok (sx, sy, 0)
    /\ sx == 3 /\ sy == 5.
Proof.
  apply (world_to_scene_inverts_scene_to_world frame_left 3 5).
  - simpl. lra.
  - left. reflexivity.
  - right. reflexivity.
Defined.



End CoordinatesMore.
